(** * booker: the chunked cleaning pass and the section parser

    A shallow embedding of the core of [ollama.py] (chunker, response
    filter, retry-and-fallback controller) and of [pdf_generator.py]
    (section parser, table materializer), with the properties the
    specification states about them.

    Python strings are modelled as lists of characters.  A character is a
    code point below 256; the character classes ([isspace], [\d], [lower])
    are Python's, restricted to that range. *)

From Stdlib Require Import Ascii String Bool Arith ZArith QArith Lia List.
Import ListNotations.

Close Scope Q_scope.
Open Scope nat_scope.
Open Scope list_scope.

(** ** Python strings *)

Module Py.

Definition str := list ascii.

Definition nl : ascii := "010"%char.

(** Reads a Python literal: backslash-n is the newline character, every
    other character stands for itself. *)
Fixpoint py (x : string) : str :=
  match x with
  | EmptyString => []
  | String "\"%char (String "n"%char r) => nl :: py r
  | String c r => c :: py r
  end.

Definition len (s : str) : Z := Z.of_nat (length s).

(** [bool(s)] for a string: the empty string is falsy. *)
Definition truthy (s : str) : bool :=
  match s with
  | [] => false
  | _ :: _ => true
  end.

Definition code (c : ascii) : nat := nat_of_ascii c.

Definition between (lo hi n : nat) : bool := (lo <=? n) && (n <=? hi).

(** [str.isspace] on one character: TAB..CR, FS..US, space, NEL, NBSP. *)
Definition isspace (c : ascii) : bool :=
  between 9 13 (code c) || between 28 32 (code c)
  || (code c =? 133) || (code c =? 160).

(** Decimal digits ([\d]). *)
Definition isdigit (c : ascii) : bool := between 48 57 (code c).

Definition lower_char (c : ascii) : ascii :=
  let n := code c in
  if between 65 90 n || between 192 214 n || between 216 222 n
  then ascii_of_nat (n + 32)
  else c.

Definition lower (s : str) : str := map lower_char s.

Fixpoint lstrip (s : str) : str :=
  match s with
  | [] => []
  | c :: s' => if isspace c then lstrip s' else s
  end.

Definition rstrip (s : str) : str := rev (lstrip (rev s)).

Definition strip (s : str) : str := rstrip (lstrip s).

Fixpoint startswith (s prefix : str) : bool :=
  match prefix, s with
  | [], _ => true
  | _ :: _, [] => false
  | p :: prefix', c :: s' => Ascii.eqb c p && startswith s' prefix'
  end.

(** [needle in s] *)
Fixpoint contains (s needle : str) : bool :=
  startswith s needle ||
  match s with
  | [] => false
  | _ :: s' => contains s' needle
  end.

(** [s.split(sep)] for a one-character separator. *)
Fixpoint split (sep : ascii) (s : str) : list str :=
  match s with
  | [] => [[]]
  | c :: s' =>
      if Ascii.eqb c sep then [] :: split sep s'
      else match split sep s' with
           | piece :: pieces => (c :: piece) :: pieces
           | [] => [[c]]
           end
  end.

(** [sep.join(pieces)] *)
Fixpoint join (sep : str) (pieces : list str) : str :=
  match pieces with
  | [] => []
  | [piece] => piece
  | piece :: pieces' => piece ++ sep ++ join sep pieces'
  end.

Definition str_eqb (a b : str) : bool :=
  if list_eq_dec ascii_dec a b then true else false.

(** [s] with every whitespace character deleted. *)
Definition squeeze (s : str) : str := filter (fun c => negb (isspace c)) s.

End Py.

Import Py.

(** ** The fragment of Python's [re] the program uses *)

Module Re.

(** A pattern is a sequence of elements.  Repetition is only ever applied
    to a character class in the source, and a group only ever wraps a
    greedy repetition or an alternation of literals. *)
Inductive elem : Type :=
| Lit (c : ascii)                    (* a literal character *)
| Bol                                (* ^ *)
| Eol                                (* $ *)
| Behind (cls : ascii -> bool)       (* (?<=[...]) *)
| Plus (cls : ascii -> bool)         (* [...]+   greedy *)
| LazyStar (cls : ascii -> bool)     (* [...]*?  lazy *)
| CapPlus (cls : ascii -> bool)      (* ([...]+) greedy, captured *)
| CapAlt (alts : list str).          (* (a|b|...) literals, captured *)

Definition pattern := list elem.

Definition lits (x : string) : pattern := map Lit (py x).

(** [.] : any character but the newline. *)
Definition dot (c : ascii) : bool := negb (Ascii.eqb c nl).

Definition one_of (x : string) (c : ascii) : bool :=
  existsb (Ascii.eqb c) (py x).

(** [$] without MULTILINE: at the end of the string, or just before a
    newline that ends the string. *)
Definition at_eol (s : str) : bool :=
  match s with
  | [] => true
  | [c] => Ascii.eqb c nl
  | _ => false
  end.

Fixpoint drop_prefix (prefix s : str) : option str :=
  match prefix, s with
  | [], _ => Some s
  | _ :: _, [] => None
  | p :: prefix', c :: s' =>
      if Ascii.eqb c p then drop_prefix prefix' s' else None
  end.

Definition last_of (prev : option ascii) (consumed : str) : option ascii :=
  match rev consumed with
  | [] => prev
  | c :: _ => Some c
  end.

(** The outcome of a successful match: the captured groups in order, the
    last character before the end of the match, and the unread input. *)
Definition hit : Type := list str * option ascii * str.

(** Backtracking match of [p] at the current position.  [prev] is the
    character just before the position ([None] at the start of the
    string); [s] is the input from the position on. *)
Fixpoint rmatch (p : pattern) (prev : option ascii) (s : str) {struct p}
  : option hit :=
  match p with
  | [] => Some ([], prev, s)
  | e :: p' =>
      match e with
      | Lit c =>
          match s with
          | x :: s' => if Ascii.eqb x c then rmatch p' (Some x) s' else None
          | [] => None
          end
      | Bol =>
          match prev with
          | None => rmatch p' prev s
          | Some _ => None
          end
      | Eol => if at_eol s then rmatch p' prev s else None
      | Behind cls =>
          match prev with
          | Some x => if cls x then rmatch p' prev s else None
          | None => None
          end
      | Plus cls =>
          (fix more (s : str) : option hit :=
             match s with
             | x :: s' =>
                 if cls x then
                   match more s' with
                   | Some h => Some h
                   | None => rmatch p' (Some x) s'
                   end
                 else None
             | [] => None
             end) s
      | LazyStar cls =>
          (fix later (prev : option ascii) (s : str) : option hit :=
             match rmatch p' prev s with
             | Some h => Some h
             | None =>
                 match s with
                 | x :: s' => if cls x then later (Some x) s' else None
                 | [] => None
                 end
             end) prev s
      | CapPlus cls =>
          (fix more (taken s : str) : option hit :=
             match s with
             | x :: s' =>
                 if cls x then
                   match more (taken ++ [x]) s' with
                   | Some h => Some h
                   | None =>
                       match rmatch p' (Some x) s' with
                       | Some (gs, l, r) => Some ((taken ++ [x]) :: gs, l, r)
                       | None => None
                       end
                   end
                 else None
             | [] => None
             end) [] s
      | CapAlt alts =>
          (fix try (alts : list str) : option hit :=
             match alts with
             | a :: alts' =>
                 match drop_prefix a s with
                 | Some s' =>
                     match rmatch p' (last_of prev a) s' with
                     | Some (gs, l, r) => Some (a :: gs, l, r)
                     | None => try alts'
                     end
                 | None => try alts'
                 end
             | [] => None
             end) alts
      end
  end.

(** [re.match(p, s)]: the groups of a match at the start of [s]. *)
Definition re_match (p : pattern) (s : str) : option (list str) :=
  match rmatch p None s with
  | Some (gs, _, _) => Some gs
  | None => None
  end.

(** Leftmost match at or after the current position: the text skipped
    before it, then the match. *)
Fixpoint scan (p : pattern) (prev : option ascii) (s : str)
  : option (str * hit) :=
  match rmatch p prev s with
  | Some h => Some ([], h)
  | None =>
      match s with
      | [] => None
      | x :: s' =>
          match scan p (Some x) s' with
          | Some (before, h) => Some (x :: before, h)
          | None => None
          end
      end
  end.

(** [re.search(p, s)] *)
Definition re_search (p : pattern) (s : str) : option (list str) :=
  match scan p None s with
  | Some (_, (gs, _, _)) => Some gs
  | None => None
  end.

(** [m.group(i)], [i >= 1]. *)
Definition group (i : nat) (gs : list str) : str := nth (i - 1) gs [].

(** [re.split(p, s)] for a pattern whose matches are never empty: the
    pieces between successive leftmost matches (with the groups of each
    match in between, as Python does).  [fuel] bounds the number of
    matches; [length s] of them always suffice. *)
Fixpoint split_from (fuel : nat) (p : pattern) (prev : option ascii)
  (s : str) : list str :=
  match fuel with
  | 0 => [s]
  | S fuel' =>
      match scan p prev s with
      | None => [s]
      | Some (before, (gs, l, r)) => before :: gs ++ split_from fuel' p l r
      end
  end.

Definition re_split (p : pattern) (s : str) : list str :=
  split_from (S (length s)) p None s.

End Re.

Import Re.

(** ** ollama.py *)

Module Ollama.

Definition MODEL : str := py "phi3:3.8b".

(** What the GET on the tags endpoint comes to inside the [try] block of
    [check_ollama_connection]: an exception, or the names of the models
    the service lists. *)
Inductive tags_reply : Type :=
| TagsRaised
| TagsListed (available_models : list str).

Definition check_ollama_connection (reply : tags_reply) : option str :=
  match reply with
  | TagsRaised => None
  | TagsListed available_models =>
      if negb (existsb (str_eqb MODEL) available_models) then
        match available_models with
        | selected_model :: _ => Some selected_model
        | [] => None
        end
      else Some MODEL
  end.

(** [(?<=[.!?])\s+] *)
Definition sentence_gap : pattern := [Behind (one_of ".!?"); Plus isspace].

(** The loop of [chunk_text] over the sentences; the result lists the
    chunks in the order they are yielded. *)
Fixpoint chunk_loop (max_chars : Z) (sentences : list str)
  (current_chunk : str) : list str :=
  match sentences with
  | [] => if truthy current_chunk then [strip current_chunk] else []
  | sentence :: sentences' =>
      if (len current_chunk + len sentence >? max_chars)%Z
         && truthy current_chunk
      then strip current_chunk :: chunk_loop max_chars sentences' sentence
      else if truthy current_chunk
           then chunk_loop max_chars sentences'
                  (current_chunk ++ py " " ++ sentence)
           else chunk_loop max_chars sentences' sentence
  end.

Definition chunk_text (text : str) (max_chars : Z) : list str :=
  let sentences := re_split sentence_gap text in
  chunk_loop max_chars sentences [].

Definition default_max_chars : Z := 600.

Definition skip_patterns : list str :=
  map py
    ["here is"; "here's"; "the text"; "corrected"; "fixed";
     "output:"; "result:"; "summary"; "main points"; "appears to be"]%string.

(** Whether the response filter keeps a (stripped) line. *)
Definition keep_line (line : str) : bool :=
  if existsb (fun pattern => contains (lower line) pattern) skip_patterns
  then false
  else truthy line && negb (startswith line (py "*"))
       && negb (startswith line (py "#")).

(** Lines 234-249: the response filter. *)
Definition filter_response (raw_output : str) : str :=
  let lines := split nl raw_output in
  let filtered_lines := filter keep_line (map strip lines) in
  join [nl] filtered_lines.

(** [len(cleaned_text) / len(chunk) if len(chunk) > 0 else 0], as an exact
    rational.  The float quotient of two lengths below 2^53 is below 0.5
    exactly when the rational one is. *)
Definition length_ratio (cleaned_text chunk : str) : Q :=
  if (len chunk >? 0)%Z
  then (len cleaned_text # Z.to_pos (len chunk))%Q
  else 0%Q.

Definition too_short (cleaned_text chunk : str) : bool :=
  negb (Qle_bool (1 # 2) (length_ratio cleaned_text chunk)).

(** What one POST to the model endpoint comes to inside the [try] block:
    an exception, or the text of the [response] field. *)
Inductive reply : Type :=
| Raised
| Responded (response : str).

(** The outside world of one cleaning pass: the reply to the pre-flight
    GET, and the reply to each POST, by its ordinal among the POSTs of the
    pass, the model named and the chunk sent. *)
Record world : Type := {
  tags : tags_reply;
  post : nat -> str -> str -> reply
}.

(** What a successful attempt appends to [cleaned_chunks]. *)
Definition accepted (chunk response : str) : str :=
  let raw_output := strip response in
  let cleaned_text := filter_response raw_output in
  if too_short cleaned_text chunk then chunk else cleaned_text.

(** The [for attempt in range(3)] loop, with [remaining] attempts left and
    [calls] POSTs made so far.  Returns what is appended for the chunk and
    the number of POSTs made. *)
Fixpoint attempts (w : world) (working_model chunk : str)
  (remaining calls : nat) : str * nat :=
  match remaining with
  | 0 => (chunk, calls)
  | S remaining' =>
      match post w calls working_model chunk with
      | Responded response => (accepted chunk response, S calls)
      | Raised => attempts w working_model chunk remaining' (S calls)
      end
  end.

Fixpoint clean_chunks (w : world) (working_model : str) (chunks : list str)
  (calls : nat) : list str * nat :=
  match chunks with
  | [] => ([], calls)
  | chunk :: chunks' =>
      let '(text, calls1) := attempts w working_model chunk 3 calls in
      let '(texts, calls2) := clean_chunks w working_model chunks' calls1 in
      (text :: texts, calls2)
  end.

(** Returns the final text and the number of POSTs made. *)
Definition clean_text_with_ollama (w : world) (ocr_text : str) : str * nat :=
  match check_ollama_connection (tags w) with
  | None => (ocr_text, 0)
  | Some working_model =>
      if negb (truthy working_model) then (ocr_text, 0)
      else
        let chunks := chunk_text ocr_text default_max_chars in
        let '(cleaned_chunks, calls) :=
          clean_chunks w working_model chunks 0 in
        (join (py "\n\n") cleaned_chunks, calls)
  end.

End Ollama.

(** ** pdf_generator.py *)

Module PdfGenerator.

Inductive section_type : Type := text | table | ocr.

(** A section dictionary; [table_num] is absent from text and ocr
    sections, [page] is [None] until a tag sets it. *)
Record section : Type := {
  type : section_type;
  content : str;
  table_num : option str;
  page : option str
}.

Definition Unknown : str := py "Unknown".

Definition table_start : pattern :=
  [Eol] ++ lits "TABLE " ++ [Plus isdigit; LazyStar dot; Eol].

Definition table_info : pattern :=
  [Eol] ++ lits "TABLE " ++ [CapPlus isdigit; LazyStar dot]
  ++ lits "Page " ++ [CapPlus isdigit; LazyStar dot; Eol].

Definition table_end : pattern :=
  [Eol] ++ lits "/TABLE" ++ [LazyStar dot; Eol].

Definition text_start : pattern :=
  [Eol] ++ lits "TEXT - Page " ++ [CapPlus isdigit; Eol].

Definition ocr_start : pattern :=
  [Eol] ++ lits "OCR - Page " ++ [CapPlus isdigit; Eol].

Definition page_ref : pattern := lits "Page " ++ [CapPlus isdigit].

Definition section_end : pattern :=
  [Eol; Lit "/"; CapAlt [py "TEXT"; py "OCR"]; Eol].

(** What a stripped line is to the parser, with what the tag carries. *)
Inductive line_kind : Type :=
| TableStart (table_num page_num : str)
| TableEnd
| TextStart (page_num : str)
| OcrStart (page_num : str)
| SectionEnd
| Other.

Definition matches (p : pattern) (line : str) : bool :=
  match re_match p line with
  | Some _ => true
  | None => false
  end.

Definition page_of (line : str) : str :=
  match re_search page_ref line with
  | Some gs => group 1 gs
  | None => Unknown
  end.

(** The [if]/[elif] chain of regular-expression tests. *)
Definition classify (line : str) : line_kind :=
  if matches table_start line then
    match re_search table_info line with
    | Some gs => TableStart (group 1 gs) (group 2 gs)
    | None => TableStart Unknown Unknown
    end
  else if matches table_end line then TableEnd
  else if matches text_start line then TextStart (page_of line)
  else if matches ocr_start line then OcrStart (page_of line)
  else if matches section_end line then SectionEnd
  else Other.

Definition fresh_text : section :=
  {| type := text; content := []; table_num := None; page := None |}.

Definition has_content (s : section) : bool := truthy (strip (content s)).

Definition save_if_content (sections : list section) (current : section)
  : list section :=
  if has_content current then sections ++ [current] else sections.

Definition is_table (t : section_type) : bool :=
  match t with
  | table => true
  | _ => false
  end.

Section Parser.

(** The scanner, for any reading of the tag lines. *)
Variable kind_of : str -> line_kind.

(** One iteration of the loop over the lines; the state is the output
    list and the current section. *)
Definition parse_line (state : list section * section) (raw : str)
  : list section * section :=
  let '(sections, current_section) := state in
  let line := strip raw in
  match kind_of line with
  | TableStart table_num page_num =>
      (save_if_content sections current_section,
       {| type := table; content := [];
          table_num := Some table_num; page := Some page_num |})
  | TableEnd =>
      if is_table (type current_section)
      then (sections ++ [current_section], fresh_text)
      else state
  | TextStart page_num =>
      (save_if_content sections current_section,
       {| type := text; content := [];
          table_num := None; page := Some page_num |})
  | OcrStart page_num =>
      (save_if_content sections current_section,
       {| type := ocr; content := [];
          table_num := None; page := Some page_num |})
  | SectionEnd =>
      if has_content current_section
      then (sections ++ [current_section], fresh_text)
      else state
  | Other =>
      if truthy line
      then (sections,
            {| type := type current_section;
               content := content current_section ++ line ++ [nl];
               table_num := table_num current_section;
               page := page current_section |})
      else state
  end.

Definition parse_with (text : str) : list section :=
  let lines := split nl text in
  let '(sections, current_section) :=
    fold_left parse_line lines ([], fresh_text) in
  save_if_content sections current_section.

End Parser.

Definition parse_content_sections (text : str) : list section :=
  parse_with classify text.

(** [^[\|\-\+\s]+$] *)
Definition separator_line : pattern :=
  [Bol; Plus (fun c => one_of "|-+" c || isspace c); Eol].

(** The cells of one data line. *)
Definition row_of (line : str) : list str :=
  let cells := map strip (split "|" line) in
  let cells :=
    match cells with
    | first :: cells' => if negb (truthy first) then cells' else cells
    | [] => cells
    end in
  match rev cells with
  | final :: _ => if negb (truthy final) then removelast cells else cells
  | [] => cells
  end.

(** The rows [create_table_from_markdown] hands to the table constructor,
    or [None] where it returns [None]. *)
Definition create_table_from_markdown (table_content : str)
  : option (list (list str)) :=
  let lines :=
    map strip (filter (fun line => truthy (strip line))
                 (split nl table_content)) in
  let data_lines :=
    filter (fun line => negb (matches separator_line line)) lines in
  if match data_lines with [] => true | _ => false end then None
  else
    let table_data :=
      filter (fun cells => match cells with [] => false | _ => true end)
        (map row_of data_lines) in
    match table_data with
    | [] => None
    | _ => Some table_data
    end.

End PdfGenerator.

(** ** Instances: worlds of a cleaning pass *)

Module Scenarios.

Import Ollama PdfGenerator.

(** The service lists the preferred model, and every POST raises. *)
Definition always_failing : world :=
  {| tags := TagsListed [MODEL]; post := fun _ _ _ => Raised |}.

(** The service cannot be reached. *)
Definition unreachable : world :=
  {| tags := TagsRaised; post := fun _ _ _ => Raised |}.

(** The service runs and lists no model. *)
Definition no_models : world :=
  {| tags := TagsListed []; post := fun _ _ _ => Raised |}.

(** The first POST raises; every later one answers [response]. *)
Definition answers_second (response : str) : world :=
  {| tags := TagsListed [MODEL];
     post := fun n _ _ =>
               match n with
               | 0 => Raised
               | S _ => Responded response
               end |}.

(** Every POST answers [response]. *)
Definition mocked (response : str) : world :=
  {| tags := TagsListed [MODEL]; post := fun _ _ _ => Responded response |}.

End Scenarios.

(** ** Predicates the statements use *)

Module Statements.

Import Ollama PdfGenerator.

(** No sentence ends just before the position. *)
Definition unterminated (prev : option ascii) : Prop :=
  match prev with
  | Some x => one_of ".!?" x = false
  | None => True
  end.

(** Every chunk is at most one character over the maximum, or is a
    sentence that is itself longer than the maximum. *)
Definition nearly_bounded (max_chars : Z) (all : list str) (c : str) : Prop :=
  (len c <= max_chars + 1)%Z
  \/ exists sentence, In sentence all /\ (len sentence > max_chars)%Z
                      /\ c = strip sentence.

(** For any reading of the tag lines, a section in the output has content
    that is not blank, or is a table closed by its end tag. *)
Definition settled (s : section) : Prop :=
  has_content s = true \/ type s = table.

End Statements.

(** ** pdf_reader.py *)

Module PdfReader.

(** [str.islower] on one character. *)
Definition islower (c : ascii) : bool :=
  let n := code c in
  between 97 122 n || (n =? 170) || (n =? 181) || (n =? 186)
  || between 223 246 n || between 248 255 n.

(** [s.endswith(('.', '!', '?'))] *)
Definition ends_with_mark (s : str) : bool :=
  match rev s with
  | c :: _ => one_of ".!?" c
  | [] => false
  end.

(** [s and s[0].islower()] *)
Definition starts_lower (s : str) : bool :=
  match s with
  | c :: _ => islower c
  | [] => false
  end.

(** The test of the loop for a line that is not the last: no mark at its
    end, and a next line that starts with a lowercase letter. *)
Definition merges (line next : str) : bool :=
  negb (ends_with_mark (rstrip line)) && starts_lower next.

(** The loop of [fix_artificial_linebreaks] from [line] on: [rest] holds
    the lines after it.  A merge empties the next line in the list the
    loop walks, so the loop goes on with the empty string as its line.
    The result is [new_lines]. *)
Fixpoint merge_lines (line : str) (rest : list str) : list str :=
  match rest with
  | [] => [line]
  | next :: rest' =>
      if merges line next
      then (rstrip line ++ py " " ++ lstrip next) :: merge_lines [] rest'
      else line :: merge_lines next rest'
  end.

Definition fix_artificial_linebreaks (text : str) : str :=
  let new_lines :=
    match split nl text with
    | line :: rest => merge_lines line rest
    | [] => []
    end in
  join [nl] (filter truthy new_lines).

End PdfReader.

(** ** pdf_generator.py: the paragraphs of a section *)

Module Story.

Import PdfGenerator.

(** The paragraph styles the section loop of [text_to_pdf] uses. *)
Inductive style : Type :=
| Caption | heading_style | Heading3 | Code | text_style | ocr_style.

(** The flowables the section loop asks for.  [Paragraph text st] stands
    for the call [Paragraph(text, st)], that is, for the text and the
    style handed to the constructor; what the constructor makes of the
    text (it reads it as markup and may raise) is not modelled. *)
Inductive flowable : Type :=
| Paragraph (text : str) (st : style)
| Spacer (width height : Z)
| Table (table_data : list (list str)).

(** [s.split(a + b)] for a separator of two characters. *)
Fixpoint split2 (a b : ascii) (s : str) : list str :=
  match s with
  | [] => [[]]
  | x :: t =>
      match t with
      | y :: s' =>
          if Ascii.eqb x a && Ascii.eqb y b then [] :: split2 a b s'
          else match split2 a b t with
               | piece :: pieces => (x :: piece) :: pieces
               | [] => [[x]]
               end
      | [] => [[x]]
      end
  end.

(** [s.replace(old, new)] for single characters. *)
Definition replace_char (old new : ascii) (s : str) : str :=
  map (fun c => if Ascii.eqb c old then new else c) s.

(** The [Paragraph] calls for the content of a text or ocr section, in
    order. *)
Definition paragraphs_of (content : str) (st : style) : list flowable :=
  map (fun para => Paragraph (replace_char nl " " para) st)
    (filter truthy (map strip (split2 nl nl content))).

End Story.

(** ** Further predicates *)

Module Notions.

Import Ollama PdfGenerator PdfReader.

(** The last character of [s] is a sentence terminator. *)
Definition ends_sentence (s : str) : Prop :=
  exists body c, s = body ++ [c] /\ one_of ".!?" c = true.

(** [s] holds a character that is not whitespace. *)
Definition has_ink (s : str) : Prop :=
  exists c, In c s /\ isspace c = false.

(** Total length of the sentences, counting one separator after each. *)
Fixpoint spread (sentences : list str) : Z :=
  match sentences with
  | [] => 0
  | sentence :: sentences' => (len sentence + 1 + spread sentences')%Z
  end.

(** What may stand for a chunk in the final text: the chunk itself, or a
    filtered response at least half as long. *)
Definition stands_for (chunk piece : str) : Prop :=
  piece = chunk
  \/ exists response,
       piece = filter_response (strip response)
       /\ (len chunk <= 2 * len piece)%Z.

(** The characters of a separator line of a table. *)
Definition separator_char (c : ascii) : bool := one_of "|-+" c || isspace c.

(** A section carries the data of its type: a table has its number and
    page, an ocr section its page, and only a table has a number. *)
Definition well_tagged (s : section) : Prop :=
  match type s with
  | table => table_num s <> None /\ page s <> None
  | ocr => table_num s = None /\ page s <> None
  | text => table_num s = None
  end.

(** [c] is made of non-empty stripped lines, a newline after each. *)
Definition line_block (c : str) : Prop :=
  exists lines,
    c = concat (map (fun line => line ++ [nl]) lines)
    /\ Forall (fun line => line <> [] /\ strip line = line /\ ~ In nl line)
         lines.

(** The non-blank lines of a text, stripped. *)
Definition kept_lines_of (text : str) : list str :=
  filter truthy (map strip (split nl text)).

(** No line of [rest] after [line] is merged into the line before it. *)
Fixpoint quiet (line : str) (rest : list str) : bool :=
  match rest with
  | [] => true
  | next :: rest' => negb (merges line next) && quiet next rest'
  end.

(** A text without an empty line in which no line is merged into the line
    before it. *)
Definition unbroken (text : str) : bool :=
  match split nl text with
  | line :: rest => quiet line rest && forallb truthy (line :: rest)
  | [] => false
  end.

(** No two newlines in a row. *)
Fixpoint no_blank_line (s : str) : bool :=
  match s with
  | x :: t =>
      match t with
      | y :: _ => negb (Ascii.eqb x nl && Ascii.eqb y nl) && no_blank_line t
      | [] => true
      end
  | [] => true
  end.

(** The sentences with the gaps between them put back: a gap after each
    sentence that has one. *)
Fixpoint weave (sentences gaps : list str) : str :=
  match sentences, gaps with
  | sentence :: sentences', gap :: gaps' =>
      sentence ++ gap ++ weave sentences' gaps'
  | _, _ => concat sentences
  end.

(** [s] does not start with whitespace. *)
Definition headed (s : str) : Prop :=
  match s with
  | c :: _ => isspace c = false
  | [] => True
  end.

End Notions.

Import Ollama PdfGenerator Scenarios Statements PdfReader Story Notions.

(** * Properties *)

(** ** Python strings *)

Section PyFacts.

Lemma lstrip_split (s : str) :
  exists ws, s = ws ++ lstrip s /\ forallb isspace ws = true.
Proof.
  induction s as [|c s IH]; simpl.
  - exists []. split; reflexivity.
  - destruct (isspace c) eqn:E.
    + destruct IH as (ws & H1 & H2). exists (c :: ws). simpl.
      rewrite E, H2. split; [f_equal; exact H1 | reflexivity].
    + exists []. split; reflexivity.
Qed.

Lemma lstrip_head (s : str) c t : lstrip s = c :: t -> isspace c = false.
Proof.
  induction s as [|a s IH]; simpl; [discriminate|].
  destruct (isspace a) eqn:E; [exact IH|].
  intros H. inversion H; subst. exact E.
Qed.

Lemma lstrip_fixed c (t : str) : isspace c = false -> lstrip (c :: t) = c :: t.
Proof. simpl. intros ->. reflexivity. Qed.

Lemma lstrip_idem (s : str) : lstrip (lstrip s) = lstrip s.
Proof.
  destruct (lstrip s) as [|c t] eqn:E; [reflexivity|].
  apply lstrip_fixed. exact (lstrip_head s c t E).
Qed.

Lemma lstrip_app (a b : str) :
  lstrip (a ++ b) =
  match lstrip a with
  | [] => lstrip b
  | _ :: _ => lstrip a ++ b
  end.
Proof.
  induction a as [|c a IH]; simpl; [reflexivity|].
  destruct (isspace c); [exact IH | reflexivity].
Qed.

Lemma lstrip_spaces (s : str) : forallb isspace s = true -> lstrip s = [].
Proof.
  induction s as [|c s IH]; simpl; [reflexivity|].
  intros H. apply andb_prop in H as [Hc Hs]. rewrite Hc. exact (IH Hs).
Qed.

Lemma rstrip_idem (s : str) : rstrip (rstrip s) = rstrip s.
Proof. unfold rstrip. rewrite rev_involutive, lstrip_idem. reflexivity. Qed.

Lemma rstrip_cons c (t : str) :
  isspace c = false -> rstrip (c :: t) = c :: rstrip t.
Proof.
  intros Hc. unfold rstrip. simpl. rewrite lstrip_app.
  destruct (lstrip (rev t)) as [|a l] eqn:E.
  - simpl. rewrite Hc. reflexivity.
  - rewrite rev_app_distr. reflexivity.
Qed.

Lemma rstrip_split (s : str) :
  exists ws, s = rstrip s ++ ws /\ forallb isspace ws = true.
Proof.
  destruct (lstrip_split (rev s)) as (ws & H1 & H2).
  exists (rev ws). split.
  - unfold rstrip. rewrite <- rev_app_distr, <- H1, rev_involutive.
    reflexivity.
  - rewrite forallb_forall in *. intros c Hc. apply H2.
    apply in_rev. exact Hc.
Qed.

(** [strip] cuts a run of whitespace off each end. *)
Lemma strip_split (s : str) :
  exists a b, s = a ++ strip s ++ b
              /\ forallb isspace a = true /\ forallb isspace b = true.
Proof.
  destruct (lstrip_split s) as (a & H1 & H2).
  destruct (rstrip_split (lstrip s)) as (b & H3 & H4).
  exists a, b. unfold strip. rewrite <- H3. auto.
Qed.

Theorem strip_idem (s : str) : strip (strip s) = strip s.
Proof.
  unfold strip. destruct (lstrip s) as [|c t] eqn:E; [reflexivity|].
  pose proof (lstrip_head s c t E) as Hc.
  rewrite (rstrip_cons c t Hc), (lstrip_fixed c _ Hc), (rstrip_cons c _ Hc).
  rewrite rstrip_idem. reflexivity.
Qed.

Lemma strip_spaces (s : str) : forallb isspace s = true -> strip s = [].
Proof. intros H. unfold strip. rewrite (lstrip_spaces s H). reflexivity. Qed.

Lemma strip_length (s : str) : length (strip s) <= length s.
Proof.
  destruct (strip_split s) as (a & b & H & _).
  rewrite H at 2. rewrite !length_app. lia.
Qed.

Lemma strip_len (s : str) : (len (strip s) <= len s)%Z.
Proof. unfold len. pose proof (strip_length s). lia. Qed.

Lemma in_strip (s : str) c : In c (strip s) -> In c s.
Proof.
  destruct (strip_split s) as (a & b & H & _). intros Hc.
  rewrite H. apply in_or_app. right. apply in_or_app. left. exact Hc.
Qed.

(** [split] always returns at least one piece, none of which holds the
    separator. *)
Lemma split_not_nil sep (s : str) : split sep s <> [].
Proof.
  induction s as [|c s IH]; simpl; [discriminate|].
  destruct (Ascii.eqb c sep); [discriminate|].
  destruct (split sep s); [contradiction | discriminate].
Qed.

Lemma split_pieces sep (s : str) :
  Forall (fun piece => ~ In sep piece) (split sep s).
Proof.
  induction s as [|c s IH]; simpl.
  - constructor; [intros [] | constructor].
  - destruct (Ascii.eqb c sep) eqn:E.
    + constructor; [intros [] | exact IH].
    + destruct (split sep s) as [|piece pieces] eqn:Es;
        [contradiction (split_not_nil sep s Es)|].
      inversion IH; subst. constructor; [|assumption].
      intros [Hc|Hc]; [|contradiction].
      subst. rewrite Ascii.eqb_refl in E. discriminate.
Qed.

Lemma split_no_sep sep (s : str) : ~ In sep s -> split sep s = [s].
Proof.
  induction s as [|c s IH]; simpl; [reflexivity|].
  intros H. destruct (Ascii.eqb c sep) eqn:E.
  - apply Ascii.eqb_eq in E. subst. exfalso. apply H. left. reflexivity.
  - rewrite IH; [reflexivity|]. intros Hs. apply H. right. exact Hs.
Qed.

Lemma split_app sep (a b : str) :
  ~ In sep a -> split sep (a ++ sep :: b) = a :: split sep b.
Proof.
  induction a as [|c a IH]; simpl; intros H.
  - rewrite Ascii.eqb_refl. reflexivity.
  - destruct (Ascii.eqb c sep) eqn:E.
    + apply Ascii.eqb_eq in E. subst. exfalso. apply H. left. reflexivity.
    + rewrite IH; [reflexivity|]. intros Hs. apply H. right. exact Hs.
Qed.

(** Splitting what [join] built gives the pieces back. *)
Lemma split_join sep (pieces : list str) :
  pieces <> [] -> Forall (fun piece => ~ In sep piece) pieces ->
  split sep (join [sep] pieces) = pieces.
Proof.
  induction pieces as [|piece pieces IH]; [intros H; contradiction|].
  intros _ HF. inversion HF as [|? ? Hp Hps]; subst.
  destruct pieces as [|piece' pieces'].
  - simpl. apply split_no_sep. exact Hp.
  - change (join [sep] (piece :: piece' :: pieces'))
      with (piece ++ sep :: join [sep] (piece' :: pieces')).
    rewrite (split_app sep piece _ Hp), IH; [reflexivity | discriminate | exact Hps].
Qed.

End PyFacts.

(** ** Regular expressions *)

Section ReFacts.

Lemma rmatch_plus cls p prev x (s : str) :
  rmatch (Plus cls :: p) prev (x :: s) =
  if cls x then
    match rmatch (Plus cls :: p) (Some x) s with
    | Some h => Some h
    | None => rmatch p (Some x) s
    end
  else None.
Proof. reflexivity. Qed.

Lemma rmatch_plus_nil cls p prev : rmatch (Plus cls :: p) prev [] = None.
Proof. reflexivity. Qed.

(** A greedy repetition that ends the pattern reads a non-empty run of
    the class and captures nothing. *)
Lemma rmatch_plus_last cls (s : str) : forall prev gs l r,
  rmatch [Plus cls] prev s = Some (gs, l, r) ->
  gs = [] /\ exists run, run <> [] /\ s = run ++ r
                         /\ forallb cls run = true.
Proof.
  induction s as [|x s IH]; intros prev gs l r H.
  - rewrite rmatch_plus_nil in H. discriminate.
  - rewrite rmatch_plus in H. destruct (cls x) eqn:Ex; [|discriminate].
    destruct (rmatch [Plus cls] (Some x) s) as [[[gs' l'] r']|] eqn:E.
    + inversion H; subst.
      destruct (IH _ _ _ _ E) as (Hg & run & _ & Hs & Hrun).
      split; [exact Hg|]. exists (x :: run). simpl. rewrite Ex, Hrun.
      repeat split; [discriminate | f_equal; exact Hs].
    + simpl in H. inversion H; subst.
      split; [reflexivity|]. exists [x]. simpl. rewrite Ex.
      repeat split. discriminate.
Qed.

(** [$] followed by a literal character other than the newline matches
    nowhere: the anchor wants the input to be over (or a lone newline),
    the literal wants that character next. *)
Lemma eol_then_lit c p prev (s : str) :
  c <> nl -> rmatch (Eol :: Lit c :: p) prev s = None.
Proof.
  intros Hc. destruct s as [|x [|y s]]; [reflexivity | | reflexivity].
  cbn [rmatch at_eol]. destruct (Ascii.eqb x nl) eqn:E; [|reflexivity].
  apply Ascii.eqb_eq in E. subst x.
  destruct (Ascii.eqb nl c) eqn:E; [|reflexivity].
  apply Ascii.eqb_eq in E. congruence.
Qed.

Lemma scan_nil p prev :
  scan p prev [] =
  match rmatch p prev [] with
  | Some h => Some ([], h)
  | None => None
  end.
Proof. reflexivity. Qed.

Lemma scan_cons p prev x (s : str) :
  scan p prev (x :: s) =
  match rmatch p prev (x :: s) with
  | Some h => Some ([], h)
  | None =>
      match scan p (Some x) s with
      | Some (before, h) => Some (x :: before, h)
      | None => None
      end
  end.
Proof. reflexivity. Qed.

Lemma scan_eol_then_lit c p (s : str) : forall prev,
  c <> nl -> scan (Eol :: Lit c :: p) prev s = None.
Proof.
  induction s as [|x s IH]; intros prev Hc.
  - rewrite scan_nil, (eol_then_lit c p prev _ Hc). reflexivity.
  - rewrite scan_cons, (eol_then_lit c p prev _ Hc), (IH _ Hc). reflexivity.
Qed.

(** The match of a leftmost hit lies between the skipped text and the
    unread input. *)
Lemma scan_sound p (s : str) : forall prev before h,
  scan p prev s = Some (before, h) ->
  exists prev' m, s = before ++ m /\ rmatch p prev' m = Some h.
Proof.
  induction s as [|x s IH]; intros prev before h H.
  - rewrite scan_nil in H. destruct (rmatch p prev []) eqn:E; [|discriminate].
    inversion H; subst. exists prev, []. split; [reflexivity | exact E].
  - rewrite scan_cons in H. destruct (rmatch p prev (x :: s)) eqn:E.
    + inversion H; subst. exists prev, (x :: s).
      split; [reflexivity | exact E].
    + destruct (scan p (Some x) s) as [[before' h']|] eqn:E'; [|discriminate].
      inversion H; subst.
      destruct (IH _ _ _ E') as (prev' & m & Hs & Hm).
      exists prev', m. split; [simpl; f_equal; exact Hs | exact Hm].
Qed.

End ReFacts.

(** ** The chunker *)

Section Chunker.

Lemma rmatch_behind cls p prev (s : str) :
  rmatch (Behind cls :: p) prev s =
  match prev with
  | Some x => if cls x then rmatch p prev s else None
  | None => None
  end.
Proof. reflexivity. Qed.

(** A sentence gap is a non-empty run of whitespace. *)
Lemma gap_match prev (s : str) gs l r :
  rmatch sentence_gap prev s = Some (gs, l, r) ->
  gs = [] /\ exists run, run <> [] /\ s = run ++ r
                         /\ forallb isspace run = true.
Proof.
  unfold sentence_gap. rewrite rmatch_behind.
  destruct prev as [x|]; [|discriminate].
  destruct (one_of ".!?" x); [|discriminate].
  apply rmatch_plus_last.
Qed.

Lemma scan_gap prev (s : str) before gs l r :
  scan sentence_gap prev s = Some (before, (gs, l, r)) ->
  gs = [] /\ exists run, run <> [] /\ s = before ++ run ++ r
                         /\ forallb isspace run = true.
Proof.
  intros H. destruct (scan_sound _ _ _ _ _ H) as (prev' & m & Hs & Hm).
  destruct (gap_match _ _ _ _ _ Hm) as (Hg & run & Hne & Hm' & Hrun).
  split; [exact Hg|]. exists run. subst m. auto.
Qed.

Lemma gap_needs_terminator prev (s : str) :
  unterminated prev -> rmatch sentence_gap prev s = None.
Proof.
  unfold sentence_gap. rewrite rmatch_behind.
  destruct prev as [x|]; simpl; [intros ->|]; reflexivity.
Qed.

Lemma scan_gap_none (s : str) : forall prev,
  unterminated prev ->
  Forall (fun c => one_of ".!?" c = false) s ->
  scan sentence_gap prev s = None.
Proof.
  induction s as [|x s IH]; intros prev Hp Hs.
  - rewrite scan_nil, (gap_needs_terminator _ _ Hp). reflexivity.
  - inversion Hs; subst.
    rewrite scan_cons, (gap_needs_terminator _ _ Hp), IH; auto.
Qed.

Lemma space_not_terminator c : isspace c = true -> one_of ".!?" c = false.
Proof.
  intros H. unfold one_of. simpl.
  destruct (Ascii.eqb c ".") eqn:E1;
    [apply Ascii.eqb_eq in E1; subst; discriminate|].
  destruct (Ascii.eqb c "!") eqn:E2;
    [apply Ascii.eqb_eq in E2; subst; discriminate|].
  destruct (Ascii.eqb c "?") eqn:E3;
    [apply Ascii.eqb_eq in E3; subst; discriminate|].
  reflexivity.
Qed.

(** Text without a sentence terminator is one sentence. *)
Lemma re_split_one_sentence (s : str) :
  Forall (fun c => one_of ".!?" c = false) s ->
  re_split sentence_gap s = [s].
Proof.
  intros H. unfold re_split. cbn [split_from].
  rewrite (scan_gap_none s None I H). reflexivity.
Qed.

(** The fuel of [re_split] is enough: any larger amount gives the same
    sentences. *)
Lemma split_from_fuel fuel : forall fuel' prev (s : str),
  length s < fuel -> length s < fuel' ->
  split_from fuel sentence_gap prev s = split_from fuel' sentence_gap prev s.
Proof.
  induction fuel as [|fuel IH]; intros fuel' prev s H H'; [lia|].
  destruct fuel' as [|fuel']; [lia|]. cbn [split_from].
  destruct (scan sentence_gap prev s) as [[before [[gs l] r]]|] eqn:E;
    [|reflexivity].
  destruct (scan_gap _ _ _ _ _ _ E) as (_ & run & Hne & Hs & _).
  assert (length r < length s).
  { rewrite Hs, !length_app. destruct run; [contradiction|]. simpl. lia. }
  rewrite (IH fuel' l r); [reflexivity | lia | lia].
Qed.

Lemma re_split_fuel fuel (s : str) :
  length s < fuel -> split_from fuel sentence_gap None s = re_split sentence_gap s.
Proof. intros H. unfold re_split. apply split_from_fuel; lia. Qed.

Lemma squeeze_app (a b : str) : squeeze (a ++ b) = squeeze a ++ squeeze b.
Proof. apply filter_app. Qed.

Lemma squeeze_spaces (s : str) : forallb isspace s = true -> squeeze s = [].
Proof.
  induction s as [|c s IH]; simpl; [reflexivity|].
  intros H. apply andb_prop in H as [Hc Hs]. rewrite Hc. exact (IH Hs).
Qed.

Lemma squeeze_strip (s : str) : squeeze (strip s) = squeeze s.
Proof.
  destruct (strip_split s) as (a & b & H & Ha & Hb).
  rewrite H at 2. rewrite !squeeze_app, (squeeze_spaces a Ha), (squeeze_spaces b Hb).
  rewrite app_nil_r. reflexivity.
Qed.

Lemma truthy_false (s : str) : truthy s = false -> s = [].
Proof. destruct s; [reflexivity | discriminate]. Qed.

Lemma chunk_loop_squeeze max_chars sentences : forall current_chunk,
  squeeze (concat (chunk_loop max_chars sentences current_chunk))
  = squeeze (current_chunk ++ concat sentences).
Proof.
  induction sentences as [|sentence sentences IH]; intros cur;
    cbn [chunk_loop concat].
  - destruct (truthy cur) eqn:E.
    + cbn [concat]. rewrite !app_nil_r. apply squeeze_strip.
    + rewrite (truthy_false cur E). reflexivity.
  - destruct ((len cur + len sentence >? max_chars)%Z && truthy cur).
    + cbn [concat]. rewrite !squeeze_app, squeeze_strip, IH, squeeze_app.
      reflexivity.
    + destruct (truthy cur) eqn:E.
      * rewrite IH, <- !app_assoc, !squeeze_app. reflexivity.
      * rewrite IH, (truthy_false cur E). reflexivity.
Qed.

Lemma split_from_squeeze fuel : forall prev (s : str),
  squeeze (concat (split_from fuel sentence_gap prev s)) = squeeze s.
Proof.
  induction fuel as [|fuel IH]; intros prev s; cbn [split_from].
  - cbn [concat]. rewrite app_nil_r. reflexivity.
  - destruct (scan sentence_gap prev s) as [[before [[gs l] r]]|] eqn:E.
    + destruct (scan_gap _ _ _ _ _ _ E) as (Hg & run & _ & Hs & Hrun).
      subst gs. cbn [concat app].
      rewrite squeeze_app, IH, Hs, !squeeze_app, (squeeze_spaces run Hrun).
      reflexivity.
    + cbn [concat]. rewrite app_nil_r. reflexivity.
Qed.

Lemma len_app (a b : str) : (len (a ++ b) = len a + len b)%Z.
Proof. unfold len. rewrite length_app. lia. Qed.

Lemma chunk_loop_bound max_chars all sentences : forall current_chunk,
  incl sentences all ->
  current_chunk = [] \/ In current_chunk all
    \/ (len current_chunk <= max_chars + 1)%Z ->
  Forall (nearly_bounded max_chars all)
    (chunk_loop max_chars sentences current_chunk).
Proof.
  assert (emit : forall cur,
    cur = [] \/ In cur all \/ (len cur <= max_chars + 1)%Z ->
    truthy cur = true -> nearly_bounded max_chars all (strip cur)).
  { intros cur [->|[Hin|Hle]] Ht; [discriminate| |].
    - destruct (Z_le_gt_dec (len cur) max_chars) as [Hle|Hgt].
      + left. pose proof (strip_len cur). lia.
      + right. exists cur. auto.
    - left. pose proof (strip_len cur). lia. }
  induction sentences as [|sentence sentences IH]; intros cur Hincl Hcur;
    cbn [chunk_loop].
  - destruct (truthy cur) eqn:E; [|constructor].
    constructor; [exact (emit cur Hcur E) | constructor].
  - assert (Hs : In sentence all) by (apply Hincl; left; reflexivity).
    assert (Hincl' : incl sentences all)
      by (intros x Hx; apply Hincl; right; exact Hx).
    destruct (len cur + len sentence >? max_chars)%Z eqn:Egt;
      destruct (truthy cur) eqn:E; cbn [andb].
    + constructor; [exact (emit cur Hcur E)|]. apply IH; auto.
    + apply IH; auto.
    + apply IH; [exact Hincl'|]. right. right.
      rewrite !len_app. change (len (py " ")) with 1%Z.
      rewrite Z.gtb_ltb in Egt. apply Z.ltb_ge in Egt. lia.
    + apply IH; auto.
Qed.

(** X1: every chunk is at most one character over the maximum, or is a
    sentence that is itself longer than the maximum. *)
Theorem chunk_text_nearly_bounded text max_chars :
  Forall (nearly_bounded max_chars (re_split sentence_gap text))
    (chunk_text text max_chars).
Proof.
  unfold chunk_text. apply chunk_loop_bound; [apply incl_refl | auto].
Qed.

End Chunker.

Section ChunkerClaims.

(** C2 (chunk bound), evaluated where it breaks.  The text ["ab. cd."]
    splits into the sentences ["ab."] and ["cd."], neither longer than a
    maximum of 6; the test [len(current_chunk) + len(sentence) > max_chars]
    leaves out the joining space, so both go into one chunk, which is 7
    characters long. *)
Theorem chunk_bound_off_by_one :
  re_split sentence_gap (py "ab. cd.") = [py "ab."; py "cd."]
  /\ chunk_text (py "ab. cd.") 6 = [py "ab. cd."]
  /\ len (py "ab. cd.") = 7%Z.
Proof. repeat split; vm_compute; reflexivity. Qed.

(** The same at the maximum the cleaning pass uses: two sentences of 300
    characters make one chunk of 601. *)
Lemma default_size_chunk_over_bound :
  let first := repeat "a"%char 299 ++ py "." in
  let second := repeat "b"%char 299 ++ py "." in
  let text := first ++ py " " ++ second in
  re_split sentence_gap text = [first; second]
  /\ len first = 300%Z /\ len second = 300%Z
  /\ chunk_text text default_max_chars = [text]
  /\ len text = 601%Z.
Proof. repeat split; vm_compute; reflexivity. Qed.

(** C3 (chunk coverage) fails as stated: a line break between two
    sentences comes out as a space, so the chunk is not the input with or
    without its joining space, and two different inputs give the same
    chunks: nothing computed from the chunks gives the input back. *)
Lemma chunk_coverage_counterexample :
  chunk_text (py "a.\nb.") 600 = [py "a. b."]
  /\ chunk_text (py "a. b.") 600 = [py "a. b."]
  /\ concat [py "a. b."] <> py "a.\nb."
  /\ concat [py "a."; py "b."] <> py "a.\nb."
  /\ ~ (exists recover : list str -> str,
          forall text, recover (chunk_text text 600) = text).
Proof.
  assert (E1 : chunk_text (py "a.\nb.") 600 = [py "a. b."])
    by (vm_compute; reflexivity).
  assert (E2 : chunk_text (py "a. b.") 600 = [py "a. b."])
    by (vm_compute; reflexivity).
  repeat split; try assumption; try (vm_compute; discriminate).
  intros [recover H].
  pose proof (H (py "a.\nb.")) as H1. pose proof (H (py "a. b.")) as H2.
  rewrite E1 in H1. rewrite E2, H1 in H2. vm_compute in H2. discriminate.
Qed.

(** C10: a non-empty text of whitespace only gives exactly one chunk, the
    empty string, whatever the maximum. *)
Theorem chunk_text_whitespace_only text max_chars :
  text <> [] -> Forall (fun c => isspace c = true) text ->
  chunk_text text max_chars = [[]].
Proof.
  intros Hne Hws. unfold chunk_text.
  rewrite re_split_one_sentence
    by (eapply Forall_impl; [|exact Hws]; apply space_not_terminator).
  cbn [chunk_loop truthy]. rewrite andb_false_r.
  destruct text as [|c text]; [contradiction|]. cbn [truthy].
  rewrite strip_spaces; [reflexivity|].
  apply forallb_forall. intros x Hx.
  rewrite Forall_forall in Hws. exact (Hws x Hx).
Qed.

Lemma chunk_text_whitespace_only_witness :
  chunk_text (py " \n  ") default_max_chars = [[]].
Proof.
  apply (chunk_text_whitespace_only (py " \n  ") default_max_chars).
  - discriminate.
  - repeat constructor.
Defined.

End ChunkerClaims.

(** ** The response filter *)

Section ResponseFilter.

Lemma map_fixed (f : str -> str) (l : list str) :
  Forall (fun x => f x = x) l -> map f l = l.
Proof.
  induction 1 as [|x l Hx _ IH]; simpl; [reflexivity|].
  rewrite Hx, IH. reflexivity.
Qed.

(** What the filter keeps is stripped, passes the filter again, and holds
    no newline. *)
Lemma kept_lines raw_output :
  Forall (fun line => keep_line line = true /\ strip line = line
                      /\ ~ In nl line)
    (filter keep_line (map strip (split nl raw_output))).
Proof.
  apply Forall_forall. intros line Hl.
  apply filter_In in Hl as [Hin Hkeep].
  apply in_map_iff in Hin as (line0 & <- & Hin0).
  repeat split; [exact Hkeep | apply strip_idem |].
  intros Hnl. apply in_strip in Hnl.
  pose proof (split_pieces nl raw_output) as Hp.
  rewrite Forall_forall in Hp. exact (Hp line0 Hin0 Hnl).
Qed.

(** Lines the filter keeps, joined, go through the filter unchanged. *)
Lemma filter_response_join lines :
  Forall (fun line => keep_line line = true /\ strip line = line
                      /\ ~ In nl line) lines ->
  filter_response (join [nl] lines) = join [nl] lines.
Proof.
  intros Hk. unfold filter_response.
  destruct lines as [|line kept]; [reflexivity|].
  rewrite split_join;
    [| discriminate | eapply Forall_impl; [|exact Hk]; intros ? H; apply H].
  rewrite map_fixed
    by (eapply Forall_impl; [|exact Hk]; intros ? H; apply H).
  rewrite forallb_filter_id; [reflexivity|].
  apply forallb_forall. rewrite Forall_forall in Hk.
  intros x Hx. apply (Hk x Hx).
Qed.

(** C8: the response filter is idempotent. *)
Theorem filter_response_idempotent raw_output :
  filter_response (filter_response raw_output) = filter_response raw_output.
Proof.
  unfold filter_response at 2 3. cbv zeta.
  apply filter_response_join, kept_lines.
Qed.

Lemma strip_fixed_ends (s : str) :
  strip s = s -> lstrip s = s /\ rstrip s = s.
Proof.
  intros H. destruct (lstrip_split s) as (a & Ha & _).
  destruct (rstrip_split (lstrip s)) as (b & Hb & _).
  fold (strip s) in Hb. rewrite H in Hb.
  assert (Hl : lstrip s = s).
  { assert (length a = 0).
    { apply (f_equal (@length ascii)) in Ha, Hb.
      rewrite length_app in Ha, Hb. lia. }
    destruct a; [|discriminate]. symmetry. exact Ha. }
  split; [exact Hl|]. unfold strip in H. rewrite Hl in H. exact H.
Qed.

Lemma lstrip_app_fixed (a b : str) :
  a <> [] -> lstrip a = a -> lstrip (a ++ b) = a ++ b.
Proof.
  intros Hne Ha. rewrite lstrip_app, Ha.
  destruct a; [contradiction | reflexivity].
Qed.

Lemma rstrip_app_fixed (a b : str) :
  b <> [] -> rstrip b = b -> rstrip (a ++ b) = a ++ b.
Proof.
  intros Hne Hb. unfold rstrip. rewrite rev_app_distr, lstrip_app_fixed.
  - rewrite <- rev_app_distr, rev_involutive. reflexivity.
  - intros E. apply (f_equal (@rev ascii)) in E.
    rewrite rev_involutive in E. contradiction.
  - unfold rstrip in Hb. apply (f_equal (@rev ascii)) in Hb.
    rewrite rev_involutive in Hb. exact Hb.
Qed.

Lemma join_not_nil sep line (lines : list str) :
  line <> [] -> join sep (line :: lines) <> [].
Proof.
  intros Hne. destruct lines; cbn [join]; [exact Hne|].
  destruct line; [contradiction | discriminate].
Qed.

(** Stripped, non-empty lines joined make a stripped text. *)
Lemma strip_join sep (lines : list str) :
  Forall (fun line => line <> [] /\ strip line = line) lines ->
  strip (join sep lines) = join sep lines.
Proof.
  intros H.
  assert (Hr : rstrip (join sep lines) = join sep lines).
  { induction H as [|line lines [Hne Hs] Hrest IH]; [reflexivity|].
    destruct lines as [|line' lines'].
    - exact (proj2 (strip_fixed_ends line Hs)).
    - change (join sep (line :: line' :: lines'))
        with (line ++ sep ++ join sep (line' :: lines')).
      rewrite app_assoc. apply rstrip_app_fixed; [|exact IH].
      inversion Hrest as [|? ? [Hne' _] _]; subst.
      apply join_not_nil. exact Hne'. }
  unfold strip. destruct H as [|line lines [Hne Hs] Hrest]; [reflexivity|].
  replace (lstrip (join sep (line :: lines))) with (join sep (line :: lines));
    [exact Hr|].
  symmetry. destruct lines as [|line' lines'].
  - exact (proj1 (strip_fixed_ends line Hs)).
  - change (join sep (line :: line' :: lines'))
      with (line ++ sep ++ join sep (line' :: lines')).
    apply lstrip_app_fixed; [exact Hne | exact (proj1 (strip_fixed_ends line Hs))].
Qed.

Lemma keep_line_not_nil line : keep_line line = true -> line <> [].
Proof. intros H ->. discriminate H. Qed.

(** The filtered text is stripped already. *)
Lemma filter_response_stripped raw_output :
  strip (filter_response raw_output) = filter_response raw_output.
Proof.
  unfold filter_response. cbv zeta. apply strip_join.
  eapply Forall_impl; [|apply kept_lines].
  intros line (Hk & Hs & _). split; [exact (keep_line_not_nil line Hk) | exact Hs].
Qed.

(** The filter as the retry loop applies it, after stripping the raw
    response, is idempotent as well. *)
Lemma strip_then_filter_twice response :
  filter_response (strip (filter_response (strip response)))
  = filter_response (strip response).
Proof.
  rewrite filter_response_stripped.
  unfold filter_response at 2 3. cbv zeta.
  apply filter_response_join, kept_lines.
Qed.

End ResponseFilter.

(** ** The retry-and-fallback controller *)

Section Controller.

Variable w : world.
Variables working_model chunk : str.

Lemma too_short_lt cleaned_text :
  (length_ratio cleaned_text chunk < 1 # 2)%Q ->
  too_short cleaned_text chunk = true.
Proof.
  intros H. unfold too_short.
  destruct (Qle_bool (1 # 2) (length_ratio cleaned_text chunk)) eqn:E;
    [|reflexivity].
  apply Qle_bool_iff in E. exfalso. exact (Qlt_not_le _ _ H E).
Qed.

(** Attempts that all raise end in the original chunk. *)
Lemma attempts_all_raised remaining : forall calls,
  (forall j, j < remaining ->
             post w (calls + j) working_model chunk = Raised) ->
  attempts w working_model chunk remaining calls = (chunk, calls + remaining).
Proof.
  induction remaining as [|n IH]; intros calls H; cbn [attempts].
  - rewrite Nat.add_0_r. reflexivity.
  - pose proof (H 0 (Nat.lt_0_succ n)) as H0. rewrite Nat.add_0_r in H0.
    rewrite H0, IH.
    + f_equal. lia.
    + intros j Hj. replace (S calls + j) with (calls + S j) by lia.
      apply H. lia.
Qed.

(** The first attempt that gets a response settles the chunk. *)
Lemma attempts_first_response remaining : forall calls k response,
  k < remaining ->
  (forall j, j < k -> post w (calls + j) working_model chunk = Raised) ->
  post w (calls + k) working_model chunk = Responded response ->
  attempts w working_model chunk remaining calls
  = (accepted chunk response, calls + k + 1).
Proof.
  induction remaining as [|n IH]; intros calls k response Hk Hr Hp; [lia|].
  cbn [attempts]. destruct k as [|k].
  - rewrite Nat.add_0_r in Hp. rewrite Hp. f_equal. lia.
  - pose proof (Hr 0 (Nat.lt_0_succ k)) as H0. rewrite Nat.add_0_r in H0.
    rewrite H0, (IH (S calls) k response).
    + f_equal. lia.
    + lia.
    + intros j Hj. replace (S calls + j) with (calls + S j) by lia.
      apply Hr. lia.
    + replace (S calls + k) with (calls + S k) by lia. exact Hp.
Qed.

(** C5 (length-ratio gate): when an attempt for a chunk gets a response
    (the attempts before it having raised) and the filtered response is
    shorter than half the chunk, the chunk itself is appended, and the
    POST that got the response is the last one made for the chunk. *)
Theorem length_ratio_gate calls k response :
  k < 3 ->
  (forall j, j < k -> post w (calls + j) working_model chunk = Raised) ->
  post w (calls + k) working_model chunk = Responded response ->
  (length_ratio (filter_response (strip response)) chunk < 1 # 2)%Q ->
  attempts w working_model chunk 3 calls = (chunk, calls + k + 1).
Proof.
  intros Hk Hr Hp Hshort.
  rewrite (attempts_first_response 3 calls k response Hk Hr Hp).
  unfold accepted. rewrite (too_short_lt _ Hshort). reflexivity.
Qed.

End Controller.

Section CleaningPass.

Variable w : world.

Lemma clean_chunks_all_raised working_model chunks : forall calls,
  (forall n model chunk, post w n model chunk = Raised) ->
  clean_chunks w working_model chunks calls
  = (chunks, calls + 3 * length chunks).
Proof.
  induction chunks as [|chunk chunks IH]; intros calls H; cbn [clean_chunks].
  - f_equal. simpl. lia.
  - rewrite (attempts_all_raised w working_model chunk 3 calls)
      by (intros; apply H).
    rewrite (IH _ H). f_equal. simpl length. lia.
Qed.

(** C6 (fallback): the pre-flight check having named a model, if every
    POST raises then the pass returns the chunks of its input, in order,
    joined with a blank line; three POSTs were made for each chunk. *)
Theorem fallback_correctness ocr_text working_model :
  check_ollama_connection (tags w) = Some working_model ->
  truthy working_model = true ->
  (forall n model chunk, post w n model chunk = Raised) ->
  clean_text_with_ollama w ocr_text
  = (join (py "\n\n") (chunk_text ocr_text default_max_chars),
     3 * length (chunk_text ocr_text default_max_chars)).
Proof.
  intros Hcheck Hmodel Hpost. unfold clean_text_with_ollama.
  rewrite Hcheck, Hmodel. cbn [negb].
  rewrite (clean_chunks_all_raised _ _ 0 Hpost). reflexivity.
Qed.

(** C7 (connectivity failure): when the pre-flight check finds no model,
    the pass returns its input as it is and makes no POST. *)
Theorem preflight_failure_returns_input ocr_text :
  check_ollama_connection (tags w) = None ->
  clean_text_with_ollama w ocr_text = (ocr_text, 0).
Proof.
  intros Hcheck. unfold clean_text_with_ollama. rewrite Hcheck. reflexivity.
Qed.

End CleaningPass.

Section CleaningPassInstances.

Lemma length_ratio_gate_witness :
  attempts (answers_second (py "ok")) MODEL (py "Th1s is brok3n.") 3 0
  = (py "Th1s is brok3n.", 0 + 1 + 1).
Proof.
  apply (length_ratio_gate (answers_second (py "ok")) MODEL
           (py "Th1s is brok3n.") 0 1 (py "ok")).
  - lia.
  - intros j Hj. destruct j; [reflexivity | lia].
  - reflexivity.
  - vm_compute. reflexivity.
Defined.

Lemma fallback_correctness_witness :
  clean_text_with_ollama always_failing (py "Th1s is brok3n. Nex t sentence here.")
  = (join (py "\n\n")
       (chunk_text (py "Th1s is brok3n. Nex t sentence here.") default_max_chars),
     3 * length
           (chunk_text (py "Th1s is brok3n. Nex t sentence here.")
              default_max_chars)).
Proof.
  apply (fallback_correctness always_failing
           (py "Th1s is brok3n. Nex t sentence here.") MODEL).
  - reflexivity.
  - reflexivity.
  - intros n model chunk. reflexivity.
Defined.

Lemma preflight_failure_returns_input_witness :
  clean_text_with_ollama unreachable (py "Th1s is brok3n.  Nex t sentence here.")
  = (py "Th1s is brok3n.  Nex t sentence here.", 0).
Proof.
  apply (preflight_failure_returns_input unreachable
           (py "Th1s is brok3n.  Nex t sentence here.")).
  reflexivity.
Defined.

(** No listed model is a pre-flight failure as well. *)
Example no_models_returns_input :
  clean_text_with_ollama no_models (py "a.  b.") = (py "a.  b.", 0).
Proof. reflexivity. Qed.

(** The gate inside a whole pass: the first POST raises, the second
    answers two characters for a chunk of fifteen; the chunk is kept and
    no third POST is made. *)
Example short_answer_keeps_chunk :
  clean_text_with_ollama (answers_second (py "ok")) (py "Th1s is brok3n.")
  = (py "Th1s is brok3n.", 2).
Proof. vm_compute. reflexivity. Qed.

(** The end-to-end scenario of the specification: one chunk, a response of
    about the same length, taken as it is after one POST. *)
Example end_to_end :
  clean_text_with_ollama (mocked (py "This is broken. Next sentence here."))
    (py "Th1s is brok3n. Nex t sentence here.")
  = (py "This is broken. Next sentence here.", 1).
Proof. vm_compute. reflexivity. Qed.

End CleaningPassInstances.

(** ** The section parser *)

Section SectionParser.

Lemma matches_eol_then_lit c p line :
  c <> nl -> matches (Eol :: Lit c :: p) line = false.
Proof.
  intros Hc. unfold matches, re_match.
  rewrite (eol_then_lit c p None line Hc). reflexivity.
Qed.

Lemma letter_not_nl c : Ascii.eqb c nl = false -> c <> nl.
Proof. intros H ->. rewrite Ascii.eqb_refl in H. discriminate. Qed.

(** Each tag pattern of the parser opens with [$] and a literal
    character, so no line is read as a tag. *)
Lemma table_start_never line : matches table_start line = false.
Proof.
  exact (matches_eol_then_lit "T" (tl (tl table_start)) line
           (letter_not_nl "T" eq_refl)).
Qed.

Lemma table_end_never line : matches table_end line = false.
Proof.
  exact (matches_eol_then_lit "/" (tl (tl table_end)) line
           (letter_not_nl "/" eq_refl)).
Qed.

Lemma text_start_never line : matches text_start line = false.
Proof.
  exact (matches_eol_then_lit "T" (tl (tl text_start)) line
           (letter_not_nl "T" eq_refl)).
Qed.

Lemma ocr_start_never line : matches ocr_start line = false.
Proof.
  exact (matches_eol_then_lit "O" (tl (tl ocr_start)) line
           (letter_not_nl "O" eq_refl)).
Qed.

Lemma section_end_never line : matches section_end line = false.
Proof.
  exact (matches_eol_then_lit "/" (tl (tl section_end)) line
           (letter_not_nl "/" eq_refl)).
Qed.

Theorem classify_other line : classify line = Other.
Proof.
  unfold classify.
  rewrite table_start_never, table_end_never, text_start_never,
    ocr_start_never, section_end_never.
  reflexivity.
Qed.

(** With no tag ever read, a line leaves the output list alone and the
    current section a pageless text section. *)
Lemma parse_line_classify sections current raw :
  exists current',
    parse_line classify (sections, current) raw = (sections, current')
    /\ type current' = type current /\ page current' = page current.
Proof.
  unfold parse_line. rewrite classify_other.
  destruct (truthy (strip raw)); eexists; repeat split.
Qed.

Lemma parse_lines_classify lines : forall sections current,
  exists current',
    fold_left (parse_line classify) lines (sections, current)
    = (sections, current')
    /\ type current' = type current /\ page current' = page current.
Proof.
  induction lines as [|raw lines IH]; intros sections current; cbn [fold_left].
  - exists current. repeat split.
  - destruct (parse_line_classify sections current raw)
      as (current1 & -> & Ht & Hp).
    destruct (IH sections current1) as (current' & -> & Ht' & Hp').
    exists current'. repeat split; congruence.
Qed.

(** What [parse_content_sections] returns: nothing, or one section of
    type text without a page, whose content is not blank. *)
Lemma parse_content_sections_shape text :
  parse_content_sections text = []
  \/ exists s, parse_content_sections text = [s]
               /\ type s = PdfGenerator.text /\ page s = None
               /\ has_content s = true.
Proof.
  unfold parse_content_sections, parse_with.
  destruct (parse_lines_classify (split nl text) [] fresh_text)
    as (current & -> & Ht & Hp).
  unfold save_if_content. destruct (has_content current) eqn:E.
  - right. exists current. repeat split; assumption.
  - left. reflexivity.
Qed.

Lemma save_if_content_settled sections current :
  Forall settled sections -> Forall settled (save_if_content sections current).
Proof.
  intros H. unfold save_if_content. destruct (has_content current) eqn:E;
    [|exact H].
  apply Forall_app. split; [exact H|]. constructor; [left; exact E | constructor].
Qed.

Lemma parse_line_settled kind_of sections current raw :
  Forall settled sections ->
  Forall settled (fst (parse_line kind_of (sections, current) raw)).
Proof.
  intros H. unfold parse_line.
  destruct (kind_of (strip raw)); cbn [fst];
    try (apply save_if_content_settled; exact H).
  - destruct (is_table (type current)) eqn:E; [|exact H].
    cbn [fst]. apply Forall_app. split; [exact H|].
    constructor; [|constructor]. right.
    destruct (type current); [discriminate | reflexivity | discriminate].
  - destruct (has_content current) eqn:E; [|exact H].
    cbn [fst]. apply Forall_app. split; [exact H|].
    constructor; [left; exact E | constructor].
  - destruct (truthy (strip raw)); exact H.
Qed.

(** X18: for any reading of the tag lines, every section the scanner
    returns has content that is not blank, or is a table section. *)
Theorem parse_with_settled kind_of text :
  Forall settled (parse_with kind_of text).
Proof.
  unfold parse_with.
  assert (H : forall lines state,
             Forall settled (fst state) ->
             Forall settled (fst (fold_left (parse_line kind_of) lines state))).
  { induction lines as [|raw lines IH]; intros [sections current] Hs;
      cbn [fold_left]; [exact Hs|].
    apply IH.
    destruct (parse_line kind_of (sections, current) raw) eqn:E.
    pose proof (parse_line_settled kind_of sections current raw Hs) as Hs'.
    rewrite E in Hs'. exact Hs'. }
  specialize (H (split nl text) ([], fresh_text) (Forall_nil _)).
  destruct (fold_left (parse_line kind_of) (split nl text) ([], fresh_text))
    as [sections current].
  apply save_if_content_settled. exact H.
Qed.

End SectionParser.

Section SectionParserClaims.

(** C4: no section in the list [parse_content_sections] returns has
    content that strips to the empty string. *)
Theorem no_blank_section text :
  Forall (fun s => strip (content s) <> []) (parse_content_sections text).
Proof.
  destruct (parse_content_sections_shape text) as [-> | (s & -> & _ & _ & H)].
  - constructor.
  - constructor; [|constructor].
    unfold has_content in H. intros E. rewrite E in H. discriminate.
Qed.

(** C1 (section round-trip), evaluated where it breaks.  The tag test
    for a text section is [re.match(r'$TEXT - Page (\d+)$', line)], and
    [$] before a literal matches no line: on the three lines below the
    parser reads no tag and gives one text section without a page that
    holds all three lines; and on no input at all does it give a text
    section with page ["1"] and content ["Hello world"]. *)
Theorem section_tags_are_not_read :
  parse_content_sections (py "$TEXT - Page 1$\nHello world\n$/TEXT$")
  = [{| type := PdfGenerator.text;
        content := py "$TEXT - Page 1$\nHello world\n$/TEXT$\n";
        table_num := None; page := None |}]
  /\ ~ (exists input,
          parse_content_sections input
          = [{| type := PdfGenerator.text; content := py "Hello world";
                table_num := None; page := Some (py "1") |}]).
Proof.
  split.
  - vm_compute. reflexivity.
  - intros [input H].
    destruct (parse_content_sections_shape input)
      as [E | (s & E & _ & Hp & _)]; rewrite E in H; [discriminate|].
    inversion H; subst s. discriminate Hp.
Qed.

(** The example of the specification, as it is written there and with
    bracketed tags: the tag lines are kept as content. *)
Example tag_lines_kept_as_content :
  parse_content_sections (py "<TEXT-OPEN page=1>\nHello world\n<TEXT-CLOSE>")
  = [{| type := PdfGenerator.text;
        content := py "<TEXT-OPEN page=1>\nHello world\n<TEXT-CLOSE>\n";
        table_num := None; page := None |}]
  /\ parse_content_sections (py "[TEXT - Page 1]\nHello world\n[/TEXT]")
     = [{| type := PdfGenerator.text;
           content := py "[TEXT - Page 1]\nHello world\n[/TEXT]\n";
           table_num := None; page := None |}].
Proof. split; vm_compute; reflexivity. Qed.

End SectionParserClaims.

(** ** The table materializer *)

Section TableMaterializer.

(** C9 (table parsing): the separator line is left out, and each data
    line gives its trimmed cells without the empty ones the outer pipes
    make. *)
Theorem table_parsing :
  create_table_from_markdown (py "| a | b |\n|---|---|\n| 1 | 2 |")
  = Some [[py "a"; py "b"]; [py "1"; py "2"]].
Proof. vm_compute. reflexivity. Qed.

(** The three steps on that body. *)
Example table_parsing_steps :
  matches separator_line (py "|---|---|") = true
  /\ matches separator_line (py "| a | b |") = false
  /\ map strip (split "|" (py "| a | b |")) = [[]; py "a"; py "b"; []]
  /\ row_of (py "| a | b |") = [py "a"; py "b"].
Proof. repeat split; vm_compute; reflexivity. Qed.

(** A body without a data line gives no table. *)
Example unrenderable_table :
  create_table_from_markdown (py "|---|\n\n  \n+--+") = None.
Proof. vm_compute. reflexivity. Qed.

End TableMaterializer.

(** * Further properties *)

(** ** Sentences *)

Section Sentences.

Lemma last_of_cons prev x (b : str) : last_of prev (x :: b) = last_of (Some x) b.
Proof.
  unfold last_of. simpl. destruct (rev b) as [|c t]; reflexivity.
Qed.

Lemma last_of_some prev (b : str) x :
  last_of prev b = Some x -> (b = [] /\ prev = Some x) \/ exists body, b = body ++ [x].
Proof.
  unfold last_of. destruct (rev b) as [|c t] eqn:E; intros H.
  - left. split; [|exact H].
    apply (f_equal (@rev ascii)) in E. rewrite rev_involutive in E. exact E.
  - right. inversion H; subst. exists (rev t).
    apply (f_equal (@rev ascii)) in E. rewrite rev_involutive in E. exact E.
Qed.

(** The position of a leftmost hit: the match starts right after the
    skipped text. *)
Lemma scan_at p (s : str) : forall prev before h,
  scan p prev s = Some (before, h) ->
  exists m, s = before ++ m /\ rmatch p (last_of prev before) m = Some h.
Proof.
  induction s as [|x s IH]; intros prev before h H.
  - rewrite scan_nil in H. destruct (rmatch p prev []) eqn:E; [|discriminate].
    inversion H; subst. exists []. split; [reflexivity | exact E].
  - rewrite scan_cons in H. destruct (rmatch p prev (x :: s)) eqn:E.
    + inversion H; subst. exists (x :: s). split; [reflexivity | exact E].
    + destruct (scan p (Some x) s) as [[before' h']|] eqn:E'; [|discriminate].
      inversion H; subst. destruct (IH _ _ _ E') as (m & Hs & Hm).
      exists m. rewrite last_of_cons. split; [simpl; f_equal; exact Hs | exact Hm].
Qed.

(** A greedy repetition that ends the pattern stops only where the class
    stops. *)
Lemma rmatch_plus_none cls prev (s : str) :
  rmatch [Plus cls] prev s = None ->
  match s with
  | c :: _ => cls c = false
  | [] => True
  end.
Proof.
  destruct s as [|c s]; [trivial|]. rewrite rmatch_plus.
  destruct (cls c); [|reflexivity].
  destruct (rmatch [Plus cls] (Some c) s); discriminate.
Qed.

Lemma rmatch_plus_greedy cls (s : str) : forall prev gs l r,
  rmatch [Plus cls] prev s = Some (gs, l, r) ->
  (exists c, l = Some c /\ cls c = true)
  /\ match r with
     | c :: _ => cls c = false
     | [] => True
     end.
Proof.
  induction s as [|x s IH]; intros prev gs l r H.
  - rewrite rmatch_plus_nil in H. discriminate.
  - rewrite rmatch_plus in H. destruct (cls x) eqn:Ex; [|discriminate].
    destruct (rmatch [Plus cls] (Some x) s) as [[[gs' l'] r']|] eqn:E.
    + inversion H; subst. exact (IH _ _ _ _ E).
    + simpl in H. inversion H; subst. split.
      * exists x. split; [reflexivity | exact Ex].
      * exact (rmatch_plus_none cls (Some x) r E).
Qed.

(** A sentence gap starts right after a terminator, is a maximal run of
    whitespace, and leaves a whitespace character behind it. *)
Lemma scan_gap_shape prev (s : str) before gs l r :
  unterminated prev ->
  scan sentence_gap prev s = Some (before, (gs, l, r)) ->
  gs = [] /\ ends_sentence before /\ unterminated l
  /\ (r = [] \/ has_ink r)
  /\ exists run, run <> [] /\ s = before ++ run ++ r.
Proof.
  intros Hprev H.
  destruct (scan_gap _ _ _ _ _ _ H) as (Hg & run & Hne & Hs & _).
  destruct (scan_at _ _ _ _ _ H) as (m & _ & Hm).
  unfold sentence_gap in Hm. rewrite rmatch_behind in Hm.
  destruct (last_of prev before) as [x|] eqn:El; [|discriminate].
  destruct (one_of ".!?" x) eqn:Ex; [|discriminate].
  destruct (rmatch_plus_greedy _ _ _ _ _ _ Hm) as ((c & Hl & Hc) & Hr).
  split; [exact Hg|]. split; [|split; [|split]].
  - destruct (last_of_some _ _ _ El) as [[_ Hp] | [body Hb]].
    + subst prev. simpl in Hprev. congruence.
    + exists body, x. split; assumption.
  - subst l. simpl. apply space_not_terminator. exact Hc.
  - destruct r as [|c' r']; [left; reflexivity|].
    right. exists c'. split; [left; reflexivity | exact Hr].
  - exists run. split; assumption.
Qed.

Lemma split_from_not_nil fuel p prev (s : str) : split_from fuel p prev s <> [].
Proof.
  destruct fuel; simpl; [discriminate|].
  destruct (scan p prev s) as [[before [[gs l] r]]|]; discriminate.
Qed.

Lemma removelast_cons (A : Type) (x : A) (l : list A) :
  l <> [] -> removelast (x :: l) = x :: removelast l.
Proof. destruct l; [contradiction | reflexivity]. Qed.

(** Every sentence but the last ends with a terminator. *)
Lemma split_from_ends fuel : forall prev (s : str),
  unterminated prev ->
  Forall ends_sentence (removelast (split_from fuel sentence_gap prev s)).
Proof.
  induction fuel as [|fuel IH]; intros prev s Hprev; cbn [split_from].
  - constructor.
  - destruct (scan sentence_gap prev s) as [[before [[gs l] r]]|] eqn:E;
      [|constructor].
    destruct (scan_gap_shape _ _ _ _ _ _ Hprev E) as (-> & Hb & Hl & _).
    cbn [app]. rewrite removelast_cons by apply split_from_not_nil.
    constructor; [exact Hb | exact (IH l r Hl)].
Qed.

Lemma ends_sentence_ink (s : str) : ends_sentence s -> has_ink s.
Proof.
  intros (body & c & -> & Hc). exists c. split.
  - apply in_or_app. right. left. reflexivity.
  - destruct (isspace c) eqn:E; [|reflexivity].
    rewrite (space_not_terminator c E) in Hc. discriminate.
Qed.

(** Every sentence is empty or holds a visible character, as soon as the
    text does. *)
Lemma split_from_ink fuel : forall prev (s : str),
  unterminated prev -> s = [] \/ has_ink s ->
  Forall (fun piece => piece = [] \/ has_ink piece)
    (split_from fuel sentence_gap prev s).
Proof.
  induction fuel as [|fuel IH]; intros prev s Hprev Hs; cbn [split_from].
  - constructor; [exact Hs | constructor].
  - destruct (scan sentence_gap prev s) as [[before [[gs l] r]]|] eqn:E;
      [|constructor; [exact Hs | constructor]].
    destruct (scan_gap_shape _ _ _ _ _ _ Hprev E) as (-> & Hb & Hl & Hr & _).
    cbn [app]. constructor; [right; exact (ends_sentence_ink _ Hb)|].
    exact (IH l r Hl Hr).
Qed.

(** The sentences and one separator each fit in the text and one more
    character. *)
Lemma split_from_spread fuel : forall prev (s : str),
  (spread (split_from fuel sentence_gap prev s) <= len s + 1)%Z.
Proof.
  induction fuel as [|fuel IH]; intros prev s; cbn [split_from].
  - cbn [spread]. lia.
  - destruct (scan sentence_gap prev s) as [[before [[gs l] r]]|] eqn:E;
      [|cbn [spread]; lia].
    destruct (scan_gap _ _ _ _ _ _ E) as (-> & run & Hne & Hs & _).
    cbn [app spread]. specialize (IH l r).
    assert (len s = len before + len run + len r)%Z
      by (rewrite Hs, !len_app; lia).
    assert (1 <= len run)%Z
      by (unfold len; destruct run; [contradiction | simpl; lia]).
    lia.
Qed.

End Sentences.

(** ** More on the chunker *)

Section ChunkerMore.

Lemma terminator_not_space c : one_of ".!?" c = true -> isspace c = false.
Proof.
  intros Hc. destruct (isspace c) eqn:E; [|reflexivity].
  rewrite (space_not_terminator c E) in Hc. discriminate.
Qed.

Lemma rstrip_last (a : str) c : isspace c = false -> rstrip (a ++ [c]) = a ++ [c].
Proof.
  intros Hc. apply rstrip_app_fixed; [discriminate|].
  unfold rstrip. simpl. rewrite Hc. reflexivity.
Qed.

Lemma strip_last (a : str) c :
  isspace c = false -> strip (a ++ [c]) = lstrip a ++ [c].
Proof.
  intros Hc. unfold strip. rewrite lstrip_app.
  destruct (lstrip a) as [|x t] eqn:E.
  - simpl. rewrite Hc. unfold rstrip. simpl. rewrite Hc. reflexivity.
  - apply rstrip_last. exact Hc.
Qed.

Lemma ends_sentence_strip (s : str) : ends_sentence s -> ends_sentence (strip s).
Proof.
  intros (body & c & -> & Hc). exists (lstrip body), c.
  split; [apply strip_last, terminator_not_space; exact Hc | exact Hc].
Qed.

Lemma ends_sentence_app (a b : str) : ends_sentence b -> ends_sentence (a ++ b).
Proof.
  intros (body & c & -> & Hc). exists (a ++ body), c.
  split; [apply app_assoc | exact Hc].
Qed.

Lemma chunk_loop_ends max_chars sentences : forall current_chunk,
  sentences = [] \/ current_chunk = [] \/ ends_sentence current_chunk ->
  Forall ends_sentence (removelast sentences) ->
  Forall ends_sentence
    (removelast (chunk_loop max_chars sentences current_chunk)).
Proof.
  induction sentences as [|sentence sentences IH]; intros cur Hcur Hss;
    cbn [chunk_loop].
  - destruct (truthy cur); constructor.
  - destruct Hcur as [Hnil|Hcur]; [discriminate|].
    assert (Hnext : forall cur',
              (ends_sentence sentence -> cur' = [] \/ ends_sentence cur') ->
              Forall ends_sentence
                (removelast (chunk_loop max_chars sentences cur'))).
    { intros cur' Hcur'. destruct sentences as [|s2 rest].
      - apply IH; [left; reflexivity | constructor].
      - rewrite removelast_cons in Hss by discriminate.
        inversion Hss; subst. apply IH; [right; auto | assumption]. }
    destruct ((len cur + len sentence >? max_chars)%Z) eqn:Egt;
      destruct (truthy cur) eqn:Et; cbn [andb].
    + destruct (chunk_loop max_chars sentences sentence) as [|c cs] eqn:El;
        [constructor|].
      rewrite removelast_cons by discriminate. constructor.
      * apply ends_sentence_strip. destruct Hcur as [->|Hc]; [discriminate | exact Hc].
      * rewrite <- El. apply Hnext. auto.
    + apply Hnext. auto.
    + apply Hnext. intros Hs. right. rewrite app_assoc.
      apply ends_sentence_app. exact Hs.
    + apply Hnext. auto.
Qed.

(** X4: chunks break only at sentence ends: every chunk but the last ends
    with [.], [!] or [?]. *)
Theorem chunks_break_after_terminator text max_chars :
  Forall ends_sentence (removelast (chunk_text text max_chars)).
Proof.
  unfold chunk_text, re_split. apply chunk_loop_ends.
  - right. left. reflexivity.
  - apply split_from_ends. exact I.
Qed.

Lemma has_ink_not_nil (s : str) : has_ink s -> s <> [].
Proof. intros (c & Hc & _) ->. contradiction. Qed.

Lemma has_ink_strip (s : str) : has_ink s -> has_ink (strip s).
Proof.
  intros (c & Hin & Hc). exists c. split; [|exact Hc].
  destruct (strip_split s) as (a & b & Hs & Ha & Hb).
  rewrite Hs in Hin. rewrite forallb_forall in Ha, Hb.
  apply in_app_or in Hin as [Hin|Hin];
    [rewrite (Ha c Hin) in Hc; discriminate|].
  apply in_app_or in Hin as [Hin|Hin]; [exact Hin|].
  rewrite (Hb c Hin) in Hc. discriminate.
Qed.

Lemma has_ink_app_l (a b : str) : has_ink a -> has_ink (a ++ b).
Proof.
  intros (c & Hin & Hc). exists c.
  split; [apply in_or_app; left; exact Hin | exact Hc].
Qed.

Lemma chunk_loop_ink max_chars sentences : forall current_chunk,
  current_chunk = [] \/ has_ink current_chunk ->
  Forall (fun piece => piece = [] \/ has_ink piece) sentences ->
  Forall (fun chunk => chunk <> [] /\ strip chunk = chunk)
    (chunk_loop max_chars sentences current_chunk).
Proof.
  assert (emit : forall cur, cur = [] \/ has_ink cur -> truthy cur = true ->
                             strip cur <> [] /\ strip (strip cur) = strip cur).
  { intros cur [->|Hc] Ht; [discriminate|].
    split; [apply has_ink_not_nil, has_ink_strip; exact Hc | apply strip_idem]. }
  induction sentences as [|sentence sentences IH]; intros cur Hcur Hss;
    cbn [chunk_loop].
  - destruct (truthy cur) eqn:Et; [|constructor].
    constructor; [exact (emit cur Hcur Et) | constructor].
  - inversion Hss as [|? ? Hs Hss']; subst.
    destruct ((len cur + len sentence >? max_chars)%Z);
      destruct (truthy cur) eqn:Et; cbn [andb].
    + constructor; [exact (emit cur Hcur Et) | apply IH; assumption].
    + apply IH; assumption.
    + apply IH; [|assumption]. right. apply has_ink_app_l.
      destruct Hcur as [->|Hc]; [discriminate | exact Hc].
    + apply IH; assumption.
Qed.

(** X3: when the text holds a visible character, every chunk is non-empty and
    carries no whitespace at either end. *)
Theorem chunks_visible text max_chars :
  has_ink text ->
  Forall (fun chunk => chunk <> [] /\ strip chunk = chunk)
    (chunk_text text max_chars).
Proof.
  intros Hink. unfold chunk_text, re_split. apply chunk_loop_ink.
  - left. reflexivity.
  - apply split_from_ink; [exact I | right; exact Hink].
Qed.

Lemma chunks_visible_witness :
  Forall (fun chunk => chunk <> [] /\ strip chunk = chunk)
    (chunk_text (py "  Th1s is brok3n.\n\nNex t sentence here. ") 20).
Proof.
  apply (chunks_visible (py "  Th1s is brok3n.\n\nNex t sentence here. ") 20).
  exists "T"%char. split; [vm_compute; tauto | reflexivity].
Defined.

Lemma chunk_loop_not_nil max_chars sentences : forall current_chunk,
  current_chunk <> [] -> chunk_loop max_chars sentences current_chunk <> [].
Proof.
  induction sentences as [|sentence sentences IH]; intros cur Hcur;
    cbn [chunk_loop]; destruct cur as [|c cur]; try contradiction; cbn [truthy].
  - discriminate.
  - rewrite andb_true_r. destruct (_ >? _)%Z; [discriminate|].
    apply IH. discriminate.
Qed.

Lemma first_sentence_not_nil (text : str) :
  text <> [] ->
  exists sentence sentences,
    re_split sentence_gap text = sentence :: sentences /\ sentence <> [].
Proof.
  intros Hne. unfold re_split. cbn [split_from].
  destruct (scan sentence_gap None text) as [[before [[gs l] r]]|] eqn:E.
  - destruct (scan_gap_shape None _ _ _ _ _ I E) as (-> & Hb & _).
    exists before, (split_from (length text) sentence_gap l r).
    split; [reflexivity | apply has_ink_not_nil, ends_sentence_ink; exact Hb].
  - exists text, []. split; [reflexivity | exact Hne].
Qed.

Lemma chunk_text_not_nil text max_chars :
  text <> [] -> chunk_text text max_chars <> [].
Proof.
  intros Hne. unfold chunk_text.
  destruct (first_sentence_not_nil text Hne) as (s1 & ss & -> & Hs1).
  cbn [chunk_loop truthy]. rewrite andb_false_r.
  apply chunk_loop_not_nil. exact Hs1.
Qed.

(** X2: there is no chunk exactly when the text is empty. *)
Theorem no_chunk_iff_empty text max_chars :
  chunk_text text max_chars = [] <-> text = [].
Proof.
  split.
  - intros H. destruct text as [|c text]; [reflexivity|].
    contradiction (chunk_text_not_nil (c :: text) max_chars); discriminate.
  - intros ->. unfold chunk_text. cbn. rewrite andb_false_r. reflexivity.
Qed.

Lemma spread_nonneg sentences : (0 <= spread sentences)%Z.
Proof.
  induction sentences as [|s ss IH]; cbn [spread]; [lia|].
  unfold len. lia.
Qed.

Lemma chunk_loop_fits max_chars sentences : forall current_chunk,
  (len current_chunk + spread sentences <= max_chars + 1)%Z ->
  length (chunk_loop max_chars sentences current_chunk) <= 1.
Proof.
  induction sentences as [|sentence sentences IH]; intros cur H;
    cbn [chunk_loop].
  - destruct (truthy cur); simpl; lia.
  - cbn [spread] in H. pose proof (spread_nonneg sentences) as Hpos.
    assert (Hlen : (0 <= len cur)%Z) by (unfold len; lia).
    destruct (truthy cur) eqn:Et.
    + assert (Egt : (len cur + len sentence >? max_chars)%Z = false)
        by (rewrite Z.gtb_ltb; apply Z.ltb_ge; lia).
      rewrite Egt. cbn [andb]. apply IH.
      rewrite !len_app. change (len (py " ")) with 1%Z. lia.
    + rewrite andb_false_r. apply IH. lia.
Qed.

(** X5: a text no longer than the maximum is one chunk, which is the text up
    to whitespace. *)
Theorem fitting_text_is_one_chunk text max_chars :
  text <> [] -> (len text <= max_chars)%Z ->
  exists chunk, chunk_text text max_chars = [chunk]
                /\ squeeze chunk = squeeze text.
Proof.
  intros Hne Hfit.
  pose proof (chunk_text_not_nil text max_chars Hne) as Hsome.
  assert (Hone : length (chunk_text text max_chars) <= 1).
  { unfold chunk_text, re_split. apply chunk_loop_fits.
    pose proof (split_from_spread (S (length text)) None text).
    change (len []) with 0%Z. lia. }
  assert (Hsq : squeeze (concat (chunk_text text max_chars)) = squeeze text).
  { unfold chunk_text, re_split. rewrite chunk_loop_squeeze. cbn [app].
    apply split_from_squeeze. }
  destruct (chunk_text text max_chars) as [|chunk [|c2 cs]];
    [contradiction | | simpl in Hone; lia].
  exists chunk. split; [reflexivity|].
  cbn [concat] in Hsq. rewrite app_nil_r in Hsq. exact Hsq.
Qed.

Lemma fitting_text_is_one_chunk_witness :
  exists chunk,
    chunk_text (py "Th1s is brok3n.\nNex t sentence here.") default_max_chars
    = [chunk]
    /\ squeeze chunk = squeeze (py "Th1s is brok3n.\nNex t sentence here.").
Proof.
  apply (fitting_text_is_one_chunk
           (py "Th1s is brok3n.\nNex t sentence here.") default_max_chars).
  - discriminate.
  - vm_compute. discriminate.
Defined.

End ChunkerMore.

(** ** More on the response filter *)

Section ResponseFilterMore.

(** Joining what [split] gave restores the string. *)
Lemma join_split sep (s : str) : join [sep] (split sep s) = s.
Proof.
  induction s as [|c s IH]; [reflexivity|]. cbn [split].
  destruct (Ascii.eqb c sep) eqn:E.
  - apply Ascii.eqb_eq in E. subst c.
    destruct (split sep s) as [|piece pieces] eqn:Es;
      [contradiction (split_not_nil sep s Es)|].
    change (join [sep] ([] :: piece :: pieces))
      with (sep :: join [sep] (piece :: pieces)).
    rewrite IH. reflexivity.
  - destruct (split sep s) as [|piece pieces] eqn:Es;
      [contradiction (split_not_nil sep s Es)|].
    rewrite <- IH. destruct pieces; reflexivity.
Qed.

Lemma join_length sep piece (pieces : list str) :
  length (join sep (piece :: pieces))
  = length piece
    + match pieces with
      | [] => 0
      | _ :: _ => length sep + length (join sep pieces)
      end.
Proof.
  destruct pieces; cbn [join]; [lia|]. rewrite !length_app. reflexivity.
Qed.

Lemma join_kept_length (keep : str -> bool) sep (lines : list str) :
  length (join sep (filter keep (map strip lines)))
  <= length (join sep lines).
Proof.
  induction lines as [|line lines IH]; [simpl; lia|].
  cbn [map filter]. rewrite (join_length sep line lines).
  pose proof (strip_length line) as Hs.
  destruct (keep (strip line)).
  - rewrite join_length.
    destruct (filter keep (map strip lines)) as [|k ks] eqn:Ek; [lia|].
    destruct lines as [|l ls]; [discriminate Ek | lia].
  - destruct lines as [|l ls]; [simpl; lia | lia].
Qed.

(** X7: the filter never makes a response longer. *)
Theorem filter_response_no_longer raw_output :
  length (filter_response raw_output) <= length raw_output.
Proof.
  unfold filter_response. cbv zeta.
  rewrite <- (join_split nl raw_output) at 2.
  apply join_kept_length.
Qed.

Lemma filter_response_lines raw_output :
  filter_response raw_output <> [] ->
  split nl (filter_response raw_output)
  = filter keep_line (map strip (split nl raw_output)).
Proof.
  unfold filter_response. cbv zeta. intros Hne.
  pose proof (kept_lines raw_output) as Hk.
  destruct (filter keep_line (map strip (split nl raw_output)))
    as [|line kept]; [contradiction Hne; reflexivity|].
  apply split_join; [discriminate|].
  eapply Forall_impl; [|exact Hk]. intros ? H. apply H.
Qed.

Lemma keep_line_true line :
  keep_line line = true ->
  line <> []
  /\ (forall pattern, In pattern skip_patterns ->
                      contains (lower line) pattern = false)
  /\ startswith line (py "*") = false
  /\ startswith line (py "#") = false.
Proof.
  unfold keep_line.
  destruct (existsb (fun pattern => contains (lower line) pattern)
              skip_patterns) eqn:E; [discriminate|].
  intros H. apply andb_prop in H as [H Hhash].
  apply andb_prop in H as [Hne Hstar].
  repeat split.
  - intros ->. discriminate Hne.
  - intros pattern Hin.
    destruct (contains (lower line) pattern) eqn:Ec; [|reflexivity].
    assert (existsb (fun pattern => contains (lower line) pattern)
              skip_patterns = true)
      by (apply existsb_exists; exists pattern; auto).
    congruence.
  - destruct (startswith line (py "*")); [discriminate | reflexivity].
  - destruct (startswith line (py "#")); [discriminate | reflexivity].
Qed.

(** X8: what is left after the filter: every line of a non-empty result is
    non-empty and stripped, holds none of the conversational markers in
    any letter case, and does not start with [*] or [#]. *)
Theorem filtered_lines_are_clean raw_output :
  filter_response raw_output <> [] ->
  Forall (fun line =>
            line <> [] /\ strip line = line
            /\ (forall pattern, In pattern skip_patterns ->
                                contains (lower line) pattern = false)
            /\ startswith line (py "*") = false
            /\ startswith line (py "#") = false)
    (split nl (filter_response raw_output)).
Proof.
  intros Hne. rewrite (filter_response_lines raw_output Hne).
  eapply Forall_impl; [|apply kept_lines].
  intros line (Hk & Hs & _).
  destruct (keep_line_true line Hk) as (H1 & H2 & H3 & H4). auto.
Qed.

Lemma filtered_lines_are_clean_witness :
  Forall (fun line =>
            line <> [] /\ strip line = line
            /\ (forall pattern, In pattern skip_patterns ->
                                contains (lower line) pattern = false)
            /\ startswith line (py "*") = false
            /\ startswith line (py "#") = false)
    (split nl (filter_response
                 (py "Here is the CORRECTED text:\n  This is broken. \n* note\n\nNext sentence here."))).
Proof.
  apply (filtered_lines_are_clean
           (py "Here is the CORRECTED text:\n  This is broken. \n* note\n\nNext sentence here.")).
  vm_compute. discriminate.
Defined.

(** X9: the texts the filter leaves as they are: the empty text, and the
    texts whose lines are all stripped and kept. *)
Theorem filter_response_fixed_points raw_output :
  filter_response raw_output = raw_output <->
  raw_output = []
  \/ Forall (fun line => keep_line line = true /\ strip line = line)
       (split nl raw_output).
Proof.
  split.
  - intros Hfix. destruct raw_output as [|c raw]; [left; reflexivity|].
    right. rewrite <- Hfix at 1.
    rewrite filter_response_lines by (rewrite Hfix; discriminate).
    eapply Forall_impl; [|apply kept_lines]. intros ? (H1 & H2 & _). auto.
  - intros [->|Hall]; [reflexivity|].
    rewrite <- (join_split nl raw_output) at 1 2.
    apply filter_response_join.
    pose proof (split_pieces nl raw_output) as Hp.
    rewrite Forall_forall in *. intros line Hin.
    destruct (Hall line Hin) as [H1 H2]. repeat split; auto.
Qed.

End ResponseFilterMore.

(** ** More on the cleaning pass *)

Section CleaningPassMore.

Variable w : world.

Lemma str_eqb_eq (a b : str) : str_eqb a b = true <-> a = b.
Proof.
  unfold str_eqb. destruct (list_eq_dec ascii_dec a b); split;
    intros H; try reflexivity; try assumption; try discriminate.
  contradiction.
Qed.

(** X11: the model the pre-flight check names is one the service lists, and is
    the preferred one whenever that is listed; it names none exactly when
    the request failed or no model is listed. *)
Theorem selected_model_is_listed reply :
  match check_ollama_connection reply with
  | Some model =>
      exists available_models,
        reply = TagsListed available_models
        /\ In model available_models
        /\ (In MODEL available_models -> model = MODEL)
  | None => reply = TagsRaised \/ reply = TagsListed []
  end.
Proof.
  destruct reply as [|models]; cbn [check_ollama_connection].
  - left. reflexivity.
  - destruct (existsb (str_eqb MODEL) models) eqn:E; cbn [negb].
    + exists models. apply existsb_exists in E as (m & Hin & Hm).
      apply str_eqb_eq in Hm. subst m. auto.
    + destruct models as [|m ms]; [right; reflexivity|].
      exists (m :: ms). repeat split; [left; reflexivity|].
      intros Hin. assert (existsb (str_eqb MODEL) (m :: ms) = true).
      { apply existsb_exists. exists MODEL. split; [exact Hin|].
        apply str_eqb_eq. reflexivity. }
      congruence.
Qed.

Lemma attempts_calls working_model chunk remaining : forall calls,
  calls <= snd (attempts w working_model chunk remaining calls)
  <= calls + remaining
  /\ (0 < remaining ->
      calls < snd (attempts w working_model chunk remaining calls)).
Proof.
  induction remaining as [|n IH]; intros calls; cbn [attempts].
  - simpl. lia.
  - destruct (post w calls working_model chunk); cbn [snd].
    + specialize (IH (S calls)). lia.
    + lia.
Qed.

Lemma clean_chunks_calls working_model chunks : forall calls,
  calls + length chunks
  <= snd (clean_chunks w working_model chunks calls)
  <= calls + 3 * length chunks.
Proof.
  induction chunks as [|chunk chunks IH]; intros calls; cbn [clean_chunks].
  - simpl. lia.
  - pose proof (attempts_calls working_model chunk 3 calls) as [H1 H2].
    destruct (attempts w working_model chunk 3 calls) as [piece calls1].
    cbn [snd] in H1, H2. specialize (IH calls1).
    destruct (clean_chunks w working_model chunks calls1) as [pieces calls2].
    cbn [snd] in *. simpl length. lia.
Qed.

Lemma not_too_short cleaned_text chunk :
  too_short cleaned_text chunk = false ->
  (len chunk <= 2 * len cleaned_text)%Z.
Proof.
  unfold too_short, length_ratio. intros H.
  apply negb_false_iff in H. apply Qle_bool_iff in H.
  destruct (len chunk >? 0)%Z eqn:E.
  - rewrite Z.gtb_ltb in E. apply Z.ltb_lt in E.
    unfold Qle in H. cbn [Qnum Qden] in H.
    rewrite Z2Pos.id in H by exact E. lia.
  - unfold Qle in H. simpl in H. lia.
Qed.

Lemma accepted_stands_for chunk response :
  stands_for chunk (accepted chunk response).
Proof.
  unfold accepted. cbv zeta.
  destruct (too_short (filter_response (strip response)) chunk) eqn:E.
  - left. reflexivity.
  - right. exists response. split; [reflexivity|].
    apply not_too_short. exact E.
Qed.

Lemma attempts_stands_for working_model chunk remaining : forall calls,
  stands_for chunk (fst (attempts w working_model chunk remaining calls)).
Proof.
  induction remaining as [|n IH]; intros calls; cbn [attempts].
  - left. reflexivity.
  - destruct (post w calls working_model chunk) as [|response];
      [apply IH | apply accepted_stands_for].
Qed.

Lemma clean_chunks_stand_for working_model chunks : forall calls,
  Forall2 stands_for chunks (fst (clean_chunks w working_model chunks calls)).
Proof.
  induction chunks as [|chunk chunks IH]; intros calls; cbn [clean_chunks].
  - constructor.
  - pose proof (attempts_stands_for working_model chunk 3 calls) as H.
    destruct (attempts w working_model chunk 3 calls) as [piece calls1].
    specialize (IH calls1).
    destruct (clean_chunks w working_model chunks calls1) as [pieces calls2].
    constructor; assumption.
Qed.

(** X13: whatever the service answers, the final text is made of one piece for
    each chunk, in order, joined by blank lines; each piece is its chunk
    or a filtered response at least half as long as the chunk. *)
Theorem final_text_pieces ocr_text working_model :
  check_ollama_connection (tags w) = Some working_model ->
  truthy working_model = true ->
  exists pieces,
    fst (clean_text_with_ollama w ocr_text) = join (py "\n\n") pieces
    /\ Forall2 stands_for (chunk_text ocr_text default_max_chars) pieces.
Proof.
  intros Hcheck Hmodel. unfold clean_text_with_ollama.
  rewrite Hcheck, Hmodel. cbn [negb].
  pose proof (clean_chunks_stand_for working_model
                (chunk_text ocr_text default_max_chars) 0) as H.
  destruct (clean_chunks w working_model
              (chunk_text ocr_text default_max_chars) 0) as [pieces calls].
  exists pieces. split; [reflexivity | exact H].
Qed.

Lemma attempts_empty_chunk working_model remaining : forall calls,
  fst (attempts w working_model [] remaining calls) = [].
Proof.
  induction remaining as [|n IH]; intros calls; cbn [attempts];
    [reflexivity|].
  destruct (post w calls working_model []); [apply IH | reflexivity].
Qed.

Lemma whitespace_only_chunks text max_chars :
  text <> [] -> Forall (fun c => isspace c = true) text ->
  chunk_text text max_chars = [[]].
Proof.
  intros Hne Hws. unfold chunk_text.
  rewrite re_split_one_sentence
    by (eapply Forall_impl; [|exact Hws]; apply space_not_terminator).
  cbn [chunk_loop truthy]. rewrite andb_false_r.
  destruct text as [|c text]; [contradiction|]. cbn [truthy].
  rewrite strip_spaces; [reflexivity|].
  apply forallb_forall. rewrite Forall_forall in Hws. exact Hws.
Qed.

(** X15: a text of whitespace only comes out of a pass that got through the
    pre-flight check as the empty string, whatever the service answers. *)
Theorem whitespace_only_text_is_emptied ocr_text working_model :
  check_ollama_connection (tags w) = Some working_model ->
  truthy working_model = true ->
  ocr_text <> [] -> Forall (fun c => isspace c = true) ocr_text ->
  fst (clean_text_with_ollama w ocr_text) = [].
Proof.
  intros Hcheck Hmodel Hne Hws. unfold clean_text_with_ollama.
  rewrite Hcheck, Hmodel. cbn [negb].
  rewrite (whitespace_only_chunks ocr_text default_max_chars Hne Hws).
  cbn [clean_chunks].
  pose proof (attempts_empty_chunk working_model 3 0) as H.
  destruct (attempts w working_model [] 3 0) as [piece calls1].
  cbn [fst] in H. subst piece. reflexivity.
Qed.

End CleaningPassMore.

Section CleaningPassMoreInstances.

Lemma final_text_pieces_witness :
  exists pieces,
    fst (clean_text_with_ollama
           (mocked (py "This is broken. Next sentence here."))
           (py "Th1s is brok3n. Nex t sentence here."))
    = join (py "\n\n") pieces
    /\ Forall2 stands_for
         (chunk_text (py "Th1s is brok3n. Nex t sentence here.")
            default_max_chars) pieces.
Proof.
  apply (final_text_pieces (mocked (py "This is broken. Next sentence here."))
           (py "Th1s is brok3n. Nex t sentence here.") MODEL); reflexivity.
Defined.

Lemma whitespace_only_text_is_emptied_witness :
  fst (clean_text_with_ollama (mocked (py "This is broken.")) (py " \n ")) = [].
Proof.
  apply (whitespace_only_text_is_emptied (mocked (py "This is broken."))
           (py " \n ") MODEL).
  - reflexivity.
  - reflexivity.
  - discriminate.
  - repeat constructor.
Defined.

End CleaningPassMoreInstances.

(** ** More on the table materializer *)

Section TableMore.

Lemma rmatch_plus_eol_some cls (s : str) : forall prev,
  s <> [] -> forallb cls s = true -> rmatch [Plus cls; Eol] prev s <> None.
Proof.
  induction s as [|x s IH]; intros prev Hne Hall; [contradiction|].
  simpl in Hall. apply andb_prop in Hall as [Hx Hs].
  rewrite rmatch_plus, Hx. destruct s as [|y s'].
  - rewrite rmatch_plus_nil. simpl. discriminate.
  - destruct (rmatch [Plus cls; Eol] (Some x) (y :: s')) eqn:E;
      [discriminate|].
    exfalso. apply (IH (Some x)); [discriminate | exact Hs | exact E].
Qed.

Lemma rmatch_plus_eol_all cls (s : str) : forall prev h,
  cls nl = true -> rmatch [Plus cls; Eol] prev s = Some h ->
  s <> [] /\ forallb cls s = true.
Proof.
  induction s as [|x s IH]; intros prev h Hnl H.
  - rewrite rmatch_plus_nil in H. discriminate.
  - split; [discriminate|]. rewrite rmatch_plus in H.
    destruct (cls x) eqn:Ex; [|discriminate]. simpl. rewrite Ex. simpl.
    destruct (rmatch [Plus cls; Eol] (Some x) s) as [h'|] eqn:E.
    + exact (proj2 (IH _ _ Hnl E)).
    + cbn [rmatch] in H. destruct s as [|y [|z s']]; simpl in H.
      * reflexivity.
      * destruct (Ascii.eqb y nl) eqn:Ey; [|discriminate].
        apply Ascii.eqb_eq in Ey. subst y. simpl. rewrite Hnl. reflexivity.
      * discriminate.
Qed.

(** The separator pattern matches the non-empty lines made of [|], [-],
    [+] and whitespace only. *)
Lemma separator_line_matches line :
  matches separator_line line = true
  <-> line <> [] /\ forallb separator_char line = true.
Proof.
  unfold matches, re_match, separator_line.
  change (rmatch [Bol; Plus (fun c => one_of "|-+" c || isspace c); Eol]
            None line)
    with (rmatch [Plus separator_char; Eol] None line).
  split.
  - destruct (rmatch [Plus separator_char; Eol] None line) as [h|] eqn:E;
      [|discriminate].
    intros _. exact (rmatch_plus_eol_all separator_char line None h eq_refl E).
  - intros [Hne Hall].
    pose proof (rmatch_plus_eol_some separator_char line None Hne Hall) as H.
    destruct (rmatch [Plus separator_char; Eol] None line) as [[[gs l] r]|];
      [reflexivity | contradiction].
Qed.

Lemma in_removelast (A : Type) (x : A) (l : list A) :
  In x (removelast l) -> In x l.
Proof.
  induction l as [|a l IH]; [intros []|].
  destruct l as [|b l]; [intros []|].
  intros [H|H]; [left; exact H | right; apply IH; exact H].
Qed.

Lemma split_chars sep (s : str) piece c :
  In piece (split sep s) -> In c piece -> In c s.
Proof.
  revert piece. induction s as [|x s IH]; intros piece Hp Hc; cbn [split] in Hp.
  - destruct Hp as [<-|[]]. exact Hc.
  - destruct (Ascii.eqb x sep).
    + destruct Hp as [<-|Hp]; [contradiction | right; exact (IH _ Hp Hc)].
    + destruct (split sep s) as [|p ps] eqn:Es;
        [contradiction (split_not_nil sep s Es)|].
      destruct Hp as [<-|Hp].
      * destruct Hc as [<-|Hc]; [left; reflexivity|].
        right. apply (IH p); [left; reflexivity | exact Hc].
      * right. apply (IH piece); [right; exact Hp | exact Hc].
Qed.

Lemma row_of_cells line cell :
  In cell (row_of line) -> In cell (map strip (split "|" line)).
Proof.
  unfold row_of. cbv zeta.
  set (cells := map strip (split "|" line)).
  set (cells1 := match cells with
                 | first :: cells' => if negb (truthy first) then cells' else cells
                 | [] => cells
                 end).
  assert (H1 : forall x, In x cells1 -> In x cells).
  { unfold cells1. destruct cells as [|first cells']; [auto|].
    destruct (negb (truthy first)); [intros x Hx; right; exact Hx | auto]. }
  destruct (rev cells1) as [|final rest]; [apply H1|].
  destruct (negb (truthy final)); [|apply H1].
  intros H. apply H1. apply in_removelast. exact H.
Qed.

Lemma strip_nil_spaces (s : str) : strip s = [] -> forallb isspace s = true.
Proof.
  intros H. destruct (strip_split s) as (a & b & Hs & Ha & Hb).
  rewrite H in Hs. rewrite Hs. simpl. rewrite forallb_app, Ha, Hb. reflexivity.
Qed.

Lemma spaces_separator (s : str) :
  forallb isspace s = true -> forallb separator_char s = true.
Proof.
  rewrite !forallb_forall. intros H c Hc. unfold separator_char.
  rewrite (H c Hc). apply orb_true_r.
Qed.

(** A line with no cell left is made of pipes and whitespace. *)
Lemma row_of_nil line : row_of line = [] -> forallb separator_char line = true.
Proof.
  unfold row_of. cbv zeta.
  pose proof (join_split "|" line) as Hj.
  destruct (split "|" line) as [|p1 ps] eqn:Es;
    [contradiction (split_not_nil "|" line Es)|].
  cbn [map]. destruct (truthy (strip p1)) eqn:E1; cbn [negb].
  - destruct (rev (strip p1 :: map strip ps)) as [|final rest] eqn:Er;
      [intros H; discriminate H|].
    destruct (truthy final) eqn:Ef; cbn [negb]; [intros H; discriminate H|].
    intros H. destruct ps as [|p2 ps']; [|discriminate H].
    simpl in Er. inversion Er; subst. congruence.
  - assert (Hp1 : strip p1 = []) by (apply truthy_false; exact E1).
    destruct ps as [|p2 ps'].
    + intros _. simpl in Hj. subst p1.
      apply spaces_separator, strip_nil_spaces. exact Hp1.
    + cbn [map]. destruct (rev (strip p2 :: map strip ps')) as [|final rest] eqn:Er.
      { apply (f_equal (@rev str)) in Er. rewrite rev_involutive in Er.
        discriminate Er. }
      destruct (truthy final) eqn:Ef; cbn [negb]; [intros H; discriminate H|].
      intros H. destruct ps' as [|p3 ps'']; [|discriminate H].
      simpl in Er. injection Er as Ep2 _. rewrite <- Ep2 in Ef.
      apply truthy_false in Ef.
      change (join ["|"%char] [p1; p2]) with (p1 ++ "|"%char :: p2) in Hj.
      rewrite <- Hj, forallb_app. cbn [forallb].
      rewrite (spaces_separator p1 (strip_nil_spaces p1 Hp1)).
      rewrite (spaces_separator p2 (strip_nil_spaces p2 Ef)).
      reflexivity.
Qed.

(** The non-blank lines of a body, stripped. *)
Lemma table_lines body line :
  In line (map strip (filter (fun l => truthy (strip l)) (split nl body)))
  -> line <> [] /\ strip line = line /\ ~ In nl line
     /\ exists raw, In raw (split nl body) /\ line = strip raw.
Proof.
  intros H. apply in_map_iff in H as (raw & <- & Hraw).
  apply filter_In in Hraw as [Hraw Ht].
  repeat split.
  - intros E. rewrite E in Ht. discriminate.
  - apply strip_idem.
  - intros Hnl. apply in_strip in Hnl.
    pose proof (split_pieces nl body) as Hp. rewrite Forall_forall in Hp.
    exact (Hp raw Hraw Hnl).
  - exists raw. auto.
Qed.

(** X16: what a table holds: at least one row, no row without cells, and in
    every cell no whitespace at either end, no pipe and no newline. *)
Theorem table_rows_invariant table_content table_data :
  create_table_from_markdown table_content = Some table_data ->
  table_data <> []
  /\ Forall (fun cells =>
               cells <> []
               /\ Forall (fun cell => strip cell = cell
                                      /\ ~ In "|"%char cell
                                      /\ ~ In nl cell) cells)
       table_data.
Proof.
  unfold create_table_from_markdown. cbv zeta.
  set (lines := map strip (filter (fun line => truthy (strip line))
                             (split nl table_content))).
  set (data_lines := filter (fun line => negb (matches separator_line line)) lines).
  assert (Hrows : forall cells,
             In cells (filter (fun cells => match cells with
                                            | [] => false
                                            | _ :: _ => true
                                            end) (map row_of data_lines)) ->
             cells <> []
             /\ Forall (fun cell => strip cell = cell /\ ~ In "|"%char cell
                                    /\ ~ In nl cell) cells).
  { intros cells Hin. apply filter_In in Hin as [Hin Hne].
    split; [intros ->; discriminate|].
    apply in_map_iff in Hin as (line & <- & Hline).
    apply filter_In in Hline as [Hline _].
    destruct (table_lines table_content line Hline) as (_ & _ & Hnl & _).
    apply Forall_forall. intros cell Hcell.
    apply row_of_cells, in_map_iff in Hcell as (piece & <- & Hpiece).
    repeat split.
    - apply strip_idem.
    - intros Hbar. apply in_strip in Hbar.
      pose proof (split_pieces "|" line) as Hp. rewrite Forall_forall in Hp.
      exact (Hp piece Hpiece Hbar).
    - intros Hc. apply in_strip in Hc.
      exact (Hnl (split_chars "|" line piece nl Hpiece Hc)). }
  destruct data_lines as [|d ds]; [discriminate|].
  destruct (filter _ (map row_of (d :: ds))) as [|row rows] eqn:Et;
    [discriminate|].
  intros H. inversion H; subst. split; [discriminate|].
  apply Forall_forall. exact Hrows.
Qed.

Lemma table_rows_invariant_witness :
  [[py "a"; py "b"]; [py "1"; py "2"]] <> []
  /\ Forall (fun cells =>
               cells <> []
               /\ Forall (fun cell => strip cell = cell
                                      /\ ~ In "|"%char cell
                                      /\ ~ In nl cell) cells)
       [[py "a"; py "b"]; [py "1"; py "2"]].
Proof.
  apply (table_rows_invariant (py "| a | b |\n|---|---|\n| 1 | 2 |")).
  vm_compute. reflexivity.
Defined.

(** X17: there is no table exactly when every non-blank line of the body is
    made of [|], [-], [+] and whitespace: one line with any other
    character gives a table, with or without pipes. *)
Theorem no_table_iff_separators_only table_content :
  create_table_from_markdown table_content = None <->
  Forall (fun line => forallb separator_char (strip line) = true)
    (split nl table_content).
Proof.
  unfold create_table_from_markdown. cbv zeta.
  set (lines := map strip (filter (fun line => truthy (strip line))
                             (split nl table_content))).
  set (data_lines := filter (fun line => negb (matches separator_line line)) lines).
  assert (Hdata : data_lines = [] <->
                  Forall (fun line => forallb separator_char (strip line) = true)
                    (split nl table_content)).
  { split.
    - intros Hnil. apply Forall_forall. intros raw Hraw.
      destruct (truthy (strip raw)) eqn:Et;
        [|rewrite (truthy_false _ Et); reflexivity].
      assert (Hin : In (strip raw) lines).
      { apply in_map, filter_In. auto. }
      destruct (matches separator_line (strip raw)) eqn:Em.
      + apply separator_line_matches in Em. apply Em.
      + assert (In (strip raw) data_lines)
          by (apply filter_In; rewrite Em; auto).
        rewrite Hnil in H. contradiction.
    - intros Hall. destruct data_lines as [|d ds] eqn:Ed; [reflexivity|].
      assert (Hd : In d data_lines) by (rewrite Ed; left; reflexivity).
      apply filter_In in Hd as [Hd Hm].
      destruct (table_lines table_content d Hd) as (Hne & _ & _ & raw & Hraw & ->).
      rewrite Forall_forall in Hall.
      assert (matches separator_line (strip raw) = true)
        by (apply separator_line_matches; auto).
      rewrite H in Hm. discriminate. }
  destruct data_lines as [|d ds] eqn:Ed.
  - split; [intros _; apply Hdata; reflexivity | reflexivity].
  - split.
    + intros H.
      destruct (filter _ (map row_of (d :: ds))) as [|row rows] eqn:Et;
        [|discriminate].
      exfalso.
      assert (Hd : In d data_lines) by (rewrite Ed; left; reflexivity).
      apply filter_In in Hd as [Hd Hm].
      destruct (table_lines table_content d Hd) as (Hne & _).
      destruct (row_of d) as [|cell cells] eqn:Er.
      * assert (matches separator_line d = true)
          by (apply separator_line_matches; split;
              [exact Hne | apply row_of_nil; exact Er]).
        rewrite H0 in Hm. discriminate.
      * cbn [map filter] in Et. rewrite Er in Et. discriminate.
    + intros Hall. apply Hdata in Hall. discriminate.
Qed.

End TableMore.

(** ** More on the section parser *)

Section SectionParserMore.

Lemma stripped_has_ink (s : str) : s <> [] -> strip s = s -> has_ink s.
Proof.
  intros Hne Hs. destruct (strip_fixed_ends s Hs) as [Hl _].
  destruct s as [|c t]; [contradiction|].
  exists c. split; [left; reflexivity | exact (lstrip_head _ _ _ Hl)].
Qed.

Lemma fold_classify lines : forall sections current,
  fold_left (parse_line classify) lines (sections, current)
  = (sections,
     {| type := type current;
        content := content current
                   ++ concat (map (fun line => line ++ [nl])
                                (filter truthy (map strip lines)));
        table_num := table_num current;
        page := page current |}).
Proof.
  induction lines as [|raw lines IH]; intros sections current;
    cbn [fold_left map filter concat].
  - rewrite app_nil_r. destruct current; reflexivity.
  - unfold parse_line at 2. rewrite classify_other.
    destruct (truthy (strip raw)); rewrite IH; [|reflexivity].
    cbn [type content table_num page concat map].
    rewrite <- !app_assoc. reflexivity.
Qed.

Lemma parse_as_written text :
  parse_content_sections text =
  match kept_lines_of text with
  | [] => []
  | _ :: _ =>
      [{| type := PdfGenerator.text;
          content := concat (map (fun line => line ++ [nl])
                               (kept_lines_of text));
          table_num := None; page := None |}]
  end.
Proof.
  unfold parse_content_sections, parse_with. rewrite fold_classify.
  cbn [fresh_text type content table_num page app].
  fold (kept_lines_of text). unfold save_if_content, has_content.
  cbn [content].
  destruct (kept_lines_of text) as [|line lines] eqn:E; [reflexivity|].
  assert (Hline : line <> [] /\ strip line = line).
  { assert (Hin : In line (kept_lines_of text)) by (rewrite E; left; reflexivity).
    unfold kept_lines_of in Hin. apply filter_In in Hin as [Hin Ht].
    apply in_map_iff in Hin as (raw & <- & _).
    split; [intros H; rewrite H in Ht; discriminate | apply strip_idem]. }
  destruct Hline as [Hne Hs].
  assert (Hink : has_ink (strip (concat (map (fun l => l ++ [nl]) (line :: lines))))).
  { apply has_ink_strip. cbn [map concat]. rewrite <- app_assoc.
    apply has_ink_app_l, stripped_has_ink; assumption. }
  destruct (strip (concat (map (fun l => l ++ [nl]) (line :: lines))))
    as [|c t]; [contradiction (has_ink_not_nil [] Hink); reflexivity|].
  reflexivity.
Qed.

(** X19: as written, the parser reads no tag: it returns nothing when the text
    has no non-blank line, and otherwise one text section without a page
    whose content is the non-blank lines, stripped, a newline after
    each. *)
Theorem parse_content_sections_one_text_section text :
  parse_content_sections text =
  match kept_lines_of text with
  | [] => []
  | _ :: _ =>
      [{| type := PdfGenerator.text;
          content := concat (map (fun line => line ++ [nl])
                               (kept_lines_of text));
          table_num := None; page := None |}]
  end.
Proof. exact (parse_as_written text). Qed.

Section Scanner.

Variable kind_of : str -> line_kind.
Variable P : section -> Prop.

Hypothesis P_fresh : P fresh_text.
Hypothesis P_table : forall table_num page_num,
  P {| type := table; content := [];
       table_num := Some table_num; page := Some page_num |}.
Hypothesis P_text : forall page_num,
  P {| type := PdfGenerator.text; content := [];
       table_num := None; page := Some page_num |}.
Hypothesis P_ocr : forall page_num,
  P {| type := ocr; content := []; table_num := None; page := Some page_num |}.
Hypothesis P_line : forall s line,
  P s -> line <> [] -> strip line = line -> ~ In nl line ->
  P {| type := type s; content := content s ++ line ++ [nl];
       table_num := table_num s; page := page s |}.

Lemma save_if_content_keeps sections current :
  Forall P sections -> P current -> Forall P (save_if_content sections current).
Proof.
  intros Hs Hc. unfold save_if_content. destruct (has_content current); [|exact Hs].
  apply Forall_app. split; [exact Hs | constructor; [exact Hc | constructor]].
Qed.

Lemma parse_line_keeps sections current raw :
  ~ In nl raw -> Forall P sections -> P current ->
  Forall P (fst (parse_line kind_of (sections, current) raw))
  /\ P (snd (parse_line kind_of (sections, current) raw)).
Proof.
  intros Hraw Hs Hc. unfold parse_line.
  destruct (kind_of (strip raw)); cbn [fst snd].
  - split; [apply save_if_content_keeps; assumption | apply P_table].
  - destruct (is_table (type current)); cbn [fst snd]; [|auto].
    split; [|exact P_fresh].
    apply Forall_app. split; [exact Hs | constructor; [exact Hc | constructor]].
  - split; [apply save_if_content_keeps; assumption | apply P_text].
  - split; [apply save_if_content_keeps; assumption | apply P_ocr].
  - destruct (has_content current); cbn [fst snd]; [|auto].
    split; [|exact P_fresh].
    apply Forall_app. split; [exact Hs | constructor; [exact Hc | constructor]].
  - destruct (truthy (strip raw)) eqn:Et; cbn [fst snd]; [|auto].
    split; [exact Hs|]. apply P_line.
    + exact Hc.
    + intros E. rewrite E in Et. discriminate.
    + apply strip_idem.
    + intros Hnl. apply Hraw, in_strip. exact Hnl.
Qed.

(** A property of sections that the tags set up and a content line keeps
    holds of every section the scanner returns. *)
Lemma parse_with_keeps text : Forall P (parse_with kind_of text).
Proof.
  unfold parse_with.
  assert (H : forall lines state,
             Forall (fun raw => ~ In nl raw) lines ->
             Forall P (fst state) -> P (snd state) ->
             Forall P (fst (fold_left (parse_line kind_of) lines state))
             /\ P (snd (fold_left (parse_line kind_of) lines state))).
  { induction lines as [|raw lines IH]; intros [sections current] Hl Hs Hc;
      cbn [fold_left]; [auto|].
    inversion Hl as [|? ? Hraw Hrest]; subst. cbn [fst snd] in Hs, Hc.
    destruct (parse_line_keeps sections current raw Hraw Hs Hc) as [K1 K2].
    apply IH; assumption. }
  destruct (H (split nl text) ([], fresh_text) (split_pieces nl text)
              (Forall_nil _) P_fresh) as [H1 H2].
  destruct (fold_left (parse_line kind_of) (split nl text) ([], fresh_text))
    as [sections current].
  apply save_if_content_keeps; assumption.
Qed.

End Scanner.

(** X20: for any reading of the tag lines, every section returned carries the
    data of its type: a table section its number and page, an ocr section
    its page, and no other section a table number. *)
Theorem sections_well_tagged kind_of text :
  Forall well_tagged (parse_with kind_of text).
Proof.
  apply parse_with_keeps; unfold well_tagged; cbn [type table_num page];
    try (split; discriminate); try reflexivity.
  - split; [reflexivity | discriminate].
  - intros s line H _ _ _. exact H.
Qed.

(** X21: for any reading of the tag lines, the content of every section
    returned is a run of non-empty stripped lines, a newline after each:
    content holds no blank line and no line of it starts or ends with
    whitespace. *)
Theorem section_content_is_lines kind_of text :
  Forall (fun s => line_block (content s)) (parse_with kind_of text).
Proof.
  apply parse_with_keeps; cbn [content];
    try (intros; exists []; split; [reflexivity | constructor]).
  intros s line (lines & Hc & Hl) Hne Hs Hnl.
  exists (lines ++ [line]). split.
  - rewrite Hc, map_app, concat_app. cbn [map concat].
    rewrite app_nil_r. reflexivity.
  - apply Forall_app. split; [exact Hl|].
    constructor; [auto | constructor].
Qed.

End SectionParserMore.

(** ** Line breaks of the OCR text *)

Section LineBreaks.

Lemma squeeze_lstrip (s : str) : squeeze (lstrip s) = squeeze s.
Proof.
  destruct (lstrip_split s) as (ws & Hs & Hws).
  rewrite Hs at 2. rewrite squeeze_app, (squeeze_spaces ws Hws). reflexivity.
Qed.

Lemma squeeze_rstrip (s : str) : squeeze (rstrip s) = squeeze s.
Proof.
  destruct (rstrip_split s) as (ws & Hs & Hws).
  rewrite Hs at 2. rewrite squeeze_app, (squeeze_spaces ws Hws), app_nil_r.
  reflexivity.
Qed.

Lemma squeeze_join_nl (lines : list str) :
  squeeze (join [nl] lines) = squeeze (concat lines).
Proof.
  induction lines as [|line lines IH]; [reflexivity|].
  destruct lines as [|line' lines'].
  - cbn [join concat]. rewrite app_nil_r. reflexivity.
  - change (join [nl] (line :: line' :: lines'))
      with (line ++ [nl] ++ join [nl] (line' :: lines')).
    cbn [concat] in *. rewrite !squeeze_app, IH, squeeze_app. reflexivity.
Qed.

Lemma squeeze_concat_truthy (lines : list str) :
  squeeze (concat (filter truthy lines)) = squeeze (concat lines).
Proof.
  induction lines as [|line lines IH]; [reflexivity|]. cbn [filter concat].
  destruct line as [|c line]; cbn [truthy concat];
    [exact IH | rewrite !squeeze_app, IH; reflexivity].
Qed.

Lemma merge_lines_squeeze rest : forall line,
  squeeze (concat (merge_lines line rest)) = squeeze (line ++ concat rest).
Proof.
  induction rest as [|next rest IH]; intros line; cbn [merge_lines concat].
  - reflexivity.
  - destruct (merges line next); cbn [concat].
    + rewrite <- !app_assoc, !squeeze_app, IH, squeeze_rstrip, squeeze_lstrip.
      rewrite squeeze_app. reflexivity.
    + rewrite !squeeze_app, IH, squeeze_app. reflexivity.
Qed.

(** X22: only whitespace changes: with every whitespace character deleted, the
    fixed text is the text. *)
Theorem linebreak_fix_keeps_ink text :
  squeeze (fix_artificial_linebreaks text) = squeeze text.
Proof.
  unfold fix_artificial_linebreaks. cbv zeta.
  rewrite squeeze_join_nl, squeeze_concat_truthy.
  rewrite <- (join_split nl text) at 2. rewrite squeeze_join_nl.
  destruct (split nl text) as [|line rest]; [reflexivity|].
  apply merge_lines_squeeze.
Qed.

Lemma in_lstrip (s : str) c : In c (lstrip s) -> In c s.
Proof.
  destruct (lstrip_split s) as (ws & Hs & _). intros H.
  rewrite Hs. apply in_or_app. right. exact H.
Qed.

Lemma in_rstrip (s : str) c : In c (rstrip s) -> In c s.
Proof.
  destruct (rstrip_split s) as (ws & Hs & _). intros H.
  rewrite Hs. apply in_or_app. left. exact H.
Qed.

Lemma merge_lines_no_nl rest : forall line,
  ~ In nl line -> Forall (fun l => ~ In nl l) rest ->
  Forall (fun l => ~ In nl l) (merge_lines line rest).
Proof.
  induction rest as [|next rest IH]; intros line Hline Hrest;
    cbn [merge_lines].
  - constructor; [exact Hline | constructor].
  - inversion Hrest as [|? ? Hnext Hrest']; subst.
    destruct (merges line next).
    + constructor; [|apply IH; [intros [] | exact Hrest']].
      intros H. apply in_app_or in H as [H|H];
        [exact (Hline (in_rstrip _ _ H))|].
      apply in_app_or in H as [H|H];
        [vm_compute in H; intuition discriminate|].
      exact (Hnext (in_lstrip _ _ H)).
    + constructor; [exact Hline | apply IH; assumption].
Qed.

(** X23: the fixed text has no empty line. *)
Theorem fixed_text_has_no_empty_line text :
  fix_artificial_linebreaks text <> [] ->
  Forall (fun line => line <> []) (split nl (fix_artificial_linebreaks text)).
Proof.
  unfold fix_artificial_linebreaks. cbv zeta.
  pose proof (split_pieces nl text) as Hp.
  destruct (split nl text) as [|line rest].
  - intros H. contradiction H. reflexivity.
  - inversion Hp as [|? ? Hline Hrest]; subst.
    pose proof (merge_lines_no_nl rest line Hline Hrest) as Hm.
    set (kept := filter truthy (merge_lines line rest)) in *.
    assert (Hk : Forall (fun l => l <> [] /\ ~ In nl l) kept).
    { apply Forall_forall. intros l Hl. apply filter_In in Hl as [Hl Ht].
      rewrite Forall_forall in Hm.
      split; [intros ->; discriminate | exact (Hm l Hl)]. }
    intros Hne. destruct kept as [|k ks] eqn:Ek;
      [contradiction Hne; reflexivity|].
    rewrite split_join;
      [| discriminate | eapply Forall_impl; [|exact Hk]; intros ? H; apply H].
    eapply Forall_impl; [|exact Hk]. intros ? H. apply H.
Qed.

Lemma fixed_text_has_no_empty_line_witness :
  Forall (fun line => line <> [])
    (split nl (fix_artificial_linebreaks (py "Data ware\n\nhouses are lim\nited.\n\nNext.\n"))).
Proof.
  apply (fixed_text_has_no_empty_line
           (py "Data ware\n\nhouses are lim\nited.\n\nNext.\n")).
  vm_compute. discriminate.
Defined.

Lemma merge_lines_quiet rest : forall line,
  quiet line rest = true -> merge_lines line rest = line :: rest.
Proof.
  induction rest as [|next rest IH]; intros line H; cbn [merge_lines];
    [reflexivity|].
  cbn [quiet] in H. apply andb_prop in H as [Hm Hq].
  apply negb_true_iff in Hm. rewrite Hm, (IH next Hq). reflexivity.
Qed.

(** X24: a text without an empty line, in which every line ends with [.], [!]
    or [?] or is followed by a line that does not start with a lowercase
    letter, is returned as it is. *)
Theorem unbroken_text_is_kept text :
  unbroken text = true -> fix_artificial_linebreaks text = text.
Proof.
  unfold unbroken, fix_artificial_linebreaks. cbv zeta.
  pose proof (join_split nl text) as Hj.
  destruct (split nl text) as [|line rest]; [discriminate|].
  intros H. apply andb_prop in H as [Hq Ht].
  rewrite (merge_lines_quiet rest line Hq), (forallb_filter_id _ _ Ht).
  exact Hj.
Qed.

Lemma unbroken_text_is_kept_witness :
  fix_artificial_linebreaks (py "Th1s is brok3n.\nNex t sentence\nHere it ends")
  = py "Th1s is brok3n.\nNex t sentence\nHere it ends".
Proof.
  apply (unbroken_text_is_kept
           (py "Th1s is brok3n.\nNex t sentence\nHere it ends")).
  vm_compute. reflexivity.
Defined.

(** X25: a merge takes two lines, never three: the line after a merged pair
    is not joined to it; when it starts with a lowercase letter it comes
    out as a line of its own behind a space. *)
Theorem merge_takes_two_lines a b c :
  ~ In nl a -> ~ In nl b -> ~ In nl c ->
  merges a b = true -> starts_lower c = true ->
  fix_artificial_linebreaks (a ++ nl :: b ++ nl :: c)
  = (rstrip a ++ py " " ++ lstrip b) ++ nl :: py " " ++ lstrip c.
Proof.
  intros Ha Hb Hc Hab Hlow. unfold fix_artificial_linebreaks. cbv zeta.
  rewrite (split_app nl a _ Ha), (split_app nl b _ Hb), (split_no_sep nl c Hc).
  cbn [merge_lines]. rewrite Hab.
  assert (Hc' : merges [] c = true) by (unfold merges; rewrite Hlow; reflexivity).
  rewrite Hc'. cbn [filter].
  assert (H1 : truthy (rstrip a ++ py " " ++ lstrip b) = true)
    by (destruct (rstrip a); reflexivity).
  rewrite H1. reflexivity.
Qed.

Lemma merge_takes_two_lines_witness :
  fix_artificial_linebreaks (py "Data ware\nhouses are lim\nited in ability.")
  = py "Data ware houses are lim\n ited in ability.".
Proof.
  apply (merge_takes_two_lines (py "Data ware") (py "houses are lim")
           (py "ited in ability.")).
  - vm_compute. intuition discriminate.
  - vm_compute. intuition discriminate.
  - vm_compute. intuition discriminate.
  - reflexivity.
  - reflexivity.
Defined.

End LineBreaks.

(** ** The story of the sections *)

Section StoryFacts.

Lemma split2_cons a b x y (s : str) :
  split2 a b (x :: y :: s) =
  if Ascii.eqb x a && Ascii.eqb y b then [] :: split2 a b s
  else match split2 a b (y :: s) with
       | piece :: pieces => (x :: piece) :: pieces
       | [] => [[x]]
       end.
Proof. reflexivity. Qed.

Lemma no_blank_line_cons x y (s : str) :
  no_blank_line (x :: y :: s)
  = negb (Ascii.eqb x nl && Ascii.eqb y nl) && no_blank_line (y :: s).
Proof. reflexivity. Qed.

Lemma split2_whole (s : str) :
  no_blank_line s = true -> split2 nl nl s = [s].
Proof.
  induction s as [|x t IH]; [reflexivity|].
  destruct t as [|y s']; [reflexivity|].
  intros H. rewrite no_blank_line_cons in H. apply andb_prop in H as [Hxy Ht].
  apply negb_true_iff in Hxy. rewrite split2_cons, Hxy, (IH Ht). reflexivity.
Qed.

Lemma no_blank_line_plain (s : str) : ~ In nl s -> no_blank_line s = true.
Proof.
  induction s as [|x t IH]; [reflexivity|]. intros H.
  destruct t as [|y s']; [reflexivity|]. rewrite no_blank_line_cons.
  rewrite IH by (intros Hin; apply H; right; exact Hin).
  destruct (Ascii.eqb x nl) eqn:E; [|reflexivity].
  apply Ascii.eqb_eq in E. subst. contradiction H. left. reflexivity.
Qed.

Lemma no_blank_line_app (line rest : str) :
  line <> [] -> ~ In nl line ->
  match rest with
  | c :: _ => c <> nl
  | [] => True
  end ->
  no_blank_line rest = true ->
  no_blank_line (line ++ nl :: rest) = true.
Proof.
  intros Hne Hnl Hhead Hrest.
  induction line as [|x line IH]; [contradiction|].
  assert (Hx : Ascii.eqb x nl = false).
  { destruct (Ascii.eqb x nl) eqn:E; [|reflexivity].
    apply Ascii.eqb_eq in E. subst. contradiction Hnl. left. reflexivity. }
  destruct line as [|x' line'].
  - change ([x] ++ nl :: rest) with (x :: nl :: rest).
    rewrite no_blank_line_cons, Hx. cbn [andb negb].
    destruct rest as [|c rest']; [reflexivity|].
    rewrite no_blank_line_cons, Ascii.eqb_refl. cbn [andb].
    destruct (Ascii.eqb c nl) eqn:Ec;
      [apply Ascii.eqb_eq in Ec; contradiction|].
    cbn [negb andb]. exact Hrest.
  - change ((x :: x' :: line') ++ nl :: rest)
      with (x :: x' :: (line' ++ nl :: rest)).
    rewrite no_blank_line_cons, Hx. cbn [andb negb].
    apply IH; [discriminate | intros Hin; apply Hnl; right; exact Hin].
Qed.

Lemma join_head (lines : list str) line c t :
  line = c :: t -> exists rest, join [nl] (line :: lines) = c :: rest.
Proof.
  intros ->. destruct lines; cbn [join]; eexists; reflexivity.
Qed.

Lemma no_blank_line_join (lines : list str) :
  Forall (fun line => line <> [] /\ ~ In nl line) lines ->
  no_blank_line (join [nl] lines) = true.
Proof.
  induction 1 as [|line lines [Hne Hnl] Hrest IH]; [reflexivity|].
  destruct lines as [|line' lines'].
  - apply no_blank_line_plain. exact Hnl.
  - change (join [nl] (line :: line' :: lines'))
      with (line ++ nl :: join [nl] (line' :: lines')).
    apply no_blank_line_app; [exact Hne | exact Hnl | | exact IH].
    inversion Hrest as [|? ? [Hne' Hnl'] _]; subst.
    destruct line' as [|c t]; [contradiction|].
    destruct (join_head lines' (c :: t) c t eq_refl) as (rest & ->).
    intros ->. apply Hnl'. left. reflexivity.
Qed.

Lemma block_join (lines : list str) :
  lines <> [] ->
  concat (map (fun line => line ++ [nl]) lines) = join [nl] lines ++ [nl].
Proof.
  induction lines as [|line lines IH]; [contradiction|]. intros _.
  destruct lines as [|line' lines'].
  - cbn [map concat join]. rewrite app_nil_r. reflexivity.
  - change (join [nl] (line :: line' :: lines'))
      with (line ++ [nl] ++ join [nl] (line' :: lines')).
    cbn [map concat] in *. rewrite IH by discriminate.
    rewrite <- !app_assoc. reflexivity.
Qed.

Lemma strip_before_nl (s : str) :
  s <> [] -> strip s = s -> strip (s ++ [nl]) = s.
Proof.
  intros Hne Hs. destruct (strip_fixed_ends s Hs) as [Hl Hr].
  unfold strip. rewrite (lstrip_app_fixed s [nl] Hne Hl).
  unfold rstrip in *. rewrite rev_app_distr. cbn [rev app lstrip].
  change (isspace nl) with true. cbv iota. exact Hr.
Qed.

Lemma replace_plain (s : str) : ~ In nl s -> replace_char nl " " s = s.
Proof.
  induction s as [|x s IH]; [reflexivity|]. intros H. cbn [replace_char map].
  unfold replace_char in IH. rewrite IH by (intros Hin; apply H; right; exact Hin).
  destruct (Ascii.eqb x nl) eqn:E; [|reflexivity].
  apply Ascii.eqb_eq in E. subst. contradiction H. left. reflexivity.
Qed.

Lemma replace_join (lines : list str) :
  Forall (fun line => ~ In nl line) lines ->
  replace_char nl " " (join [nl] lines) = join (py " ") lines.
Proof.
  induction 1 as [|line lines Hnl Hrest IH]; [reflexivity|].
  destruct lines as [|line' lines'].
  - apply replace_plain. exact Hnl.
  - change (join [nl] (line :: line' :: lines'))
      with (line ++ [nl] ++ join [nl] (line' :: lines')).
    change (join (py " ") (line :: line' :: lines'))
      with (line ++ py " " ++ join (py " ") (line' :: lines')).
    unfold replace_char in *. rewrite !map_app, IH.
    fold (replace_char nl " " line). rewrite (replace_plain line Hnl).
    reflexivity.
Qed.

Lemma kept_lines_of_spec text :
  Forall (fun line => line <> [] /\ strip line = line /\ ~ In nl line)
    (kept_lines_of text).
Proof.
  apply Forall_forall. intros line Hin. unfold kept_lines_of in Hin.
  apply filter_In in Hin as [Hin Ht].
  apply in_map_iff in Hin as (raw & <- & Hraw).
  repeat split.
  - intros E. rewrite E in Ht. discriminate.
  - apply strip_idem.
  - intros Hnl. apply in_strip in Hnl.
    pose proof (split_pieces nl text) as Hp. rewrite Forall_forall in Hp.
    exact (Hp raw Hraw Hnl).
Qed.

Lemma truthy_not_nil (s : str) : s <> [] -> truthy s = true.
Proof. destruct s; [intros H; contradiction H; reflexivity | reflexivity]. Qed.

(** A block of lines is rendered as one paragraph, its lines joined by
    spaces. *)
Lemma paragraphs_of_block (lines : list str) st :
  lines <> [] ->
  Forall (fun line => line <> [] /\ strip line = line /\ ~ In nl line) lines ->
  strip (concat (map (fun line => line ++ [nl]) lines)) = join [nl] lines
  /\ paragraphs_of (join [nl] lines) st = [Paragraph (join (py " ") lines) st].
Proof.
  intros Hne Hl.
  assert (Hj : strip (join [nl] lines) = join [nl] lines).
  { apply strip_join. eapply Forall_impl; [|exact Hl]. intros ? (H1 & H2 & _). auto. }
  assert (Hjne : join [nl] lines <> []).
  { destruct lines as [|line lines']; [contradiction|].
    inversion Hl as [|? ? (H1 & _) _]; subst. apply join_not_nil. exact H1. }
  split.
  - rewrite (block_join lines Hne). apply strip_before_nl; assumption.
  - unfold paragraphs_of. rewrite split2_whole.
    + cbn [map filter]. rewrite Hj.
      destruct (join [nl] lines) as [|c t] eqn:E; [contradiction|].
      cbn [truthy map]. rewrite <- E. rewrite replace_join; [reflexivity|].
      eapply Forall_impl; [|exact Hl]. intros ? (_ & _ & H3). exact H3.
    + apply no_blank_line_join.
      eapply Forall_impl; [|exact Hl]. intros ? (H1 & _ & H3). auto.
Qed.

End StoryFacts.

Section StoryMore.

Lemma replace_no_nl (s : str) : ~ In nl (replace_char nl " " s).
Proof.
  unfold replace_char. intros H. apply in_map_iff in H as (c & Hc & _).
  destruct (Ascii.eqb c nl) eqn:E; [discriminate Hc|].
  subst c. rewrite Ascii.eqb_refl in E. discriminate.
Qed.

(** X27: whatever the content of a text or ocr section, each of its paragraphs
    has some text, on one line, in the style of the section. *)
Theorem paragraphs_are_single_lines content st :
  Forall (fun item => exists para,
            item = Paragraph para st /\ para <> [] /\ ~ In nl para)
    (paragraphs_of content st).
Proof.
  apply Forall_forall. intros item Hin. unfold paragraphs_of in Hin.
  apply in_map_iff in Hin as (para & <- & Hpara).
  apply filter_In in Hpara as [_ Ht].
  exists (replace_char nl " " para). repeat split.
  - destruct para; [discriminate Ht | discriminate].
  - apply replace_no_nl.
Qed.

End StoryMore.

Section GateThreshold.

(** X10: the length-ratio gate in whole numbers: a filtered response is
    rejected exactly when twice its length is below the length of the
    chunk, or the chunk is empty; a response of exactly half the length
    passes. *)
Theorem too_short_iff cleaned_text chunk :
  too_short cleaned_text chunk = true
  <-> (2 * len cleaned_text < len chunk)%Z \/ chunk = [].
Proof.
  split.
  - intros H. destruct chunk as [|c chunk]; [right; reflexivity|]. left.
    destruct (Z_lt_ge_dec (2 * len cleaned_text) (len (c :: chunk)))
      as [Hlt|Hge]; [exact Hlt|].
    exfalso. unfold too_short, length_ratio in H.
    assert (Hpos : (0 < len (c :: chunk))%Z) by (unfold len; simpl; lia).
    assert (E : (len (c :: chunk) >? 0)%Z = true)
      by (rewrite Z.gtb_ltb; apply Z.ltb_lt; exact Hpos).
    rewrite E in H. apply negb_true_iff in H.
    assert (Hle : Qle_bool (1 # 2)
                    (len cleaned_text # Z.to_pos (len (c :: chunk))) = true).
    { apply Qle_bool_iff. unfold Qle. cbn [Qnum Qden].
      rewrite Z2Pos.id by exact Hpos. lia. }
    congruence.
  - intros [Hlt| ->].
    + destruct (too_short cleaned_text chunk) eqn:E; [reflexivity|].
      pose proof (not_too_short cleaned_text chunk E). lia.
    + reflexivity.
Qed.

End GateThreshold.

Section OversizedSentence.

Lemma oversized_buffer_is_emitted max_chars sentences current_chunk :
  (0 <= max_chars)%Z -> (len current_chunk > max_chars)%Z ->
  In (strip current_chunk) (chunk_loop max_chars sentences current_chunk).
Proof.
  intros Hmax Hlen.
  assert (Ht : truthy current_chunk = true).
  { destruct current_chunk; [unfold len in Hlen; simpl in Hlen; lia | reflexivity]. }
  destruct sentences as [|sentence sentences]; cbn [chunk_loop]; rewrite Ht.
  - left. reflexivity.
  - assert (E : (len current_chunk + len sentence >? max_chars)%Z = true).
    { rewrite Z.gtb_ltb. apply Z.ltb_lt. unfold len in *. lia. }
    rewrite E. left. reflexivity.
Qed.

Lemma chunk_loop_oversized max_chars s sentences : forall current_chunk,
  (0 <= max_chars)%Z -> (len s > max_chars)%Z -> In s sentences ->
  In (strip s) (chunk_loop max_chars sentences current_chunk).
Proof.
  induction sentences as [|sentence sentences IH]; intros cur Hmax Hlen Hin;
    [contradiction|].
  cbn [chunk_loop]. destruct Hin as [->|Hin].
  - destruct (truthy cur) eqn:Et.
    + assert (E : (len cur + len s >? max_chars)%Z = true).
      { rewrite Z.gtb_ltb. apply Z.ltb_lt. unfold len in *. lia. }
      rewrite E. cbn [andb]. right.
      apply oversized_buffer_is_emitted; assumption.
    + rewrite andb_false_r. apply oversized_buffer_is_emitted; assumption.
  - destruct ((len cur + len sentence >? max_chars)%Z && truthy cur).
    + right. apply IH; assumption.
    + destruct (truthy cur); apply IH; assumption.
Qed.

(** X6: a sentence longer than the maximum is never split or joined to
    another: it comes out, stripped, as a chunk of its own. *)
Theorem oversized_sentence_is_a_chunk text max_chars sentence :
  (0 <= max_chars)%Z ->
  In sentence (re_split sentence_gap text) ->
  (len sentence > max_chars)%Z ->
  In (strip sentence) (chunk_text text max_chars).
Proof.
  intros Hmax Hin Hlen. unfold chunk_text.
  apply chunk_loop_oversized; assumption.
Qed.

Lemma oversized_sentence_is_a_chunk_witness :
  In (strip (py "Nex t sentence here."))
    (chunk_text (py "Th1s. Nex t sentence here. End.") 10).
Proof.
  apply (oversized_sentence_is_a_chunk
           (py "Th1s. Nex t sentence here. End.") 10 (py "Nex t sentence here.")).
  - lia.
  - vm_compute. tauto.
  - vm_compute. reflexivity.
Defined.

End OversizedSentence.

Section AcceptedResponse.

Variable w : world.

(** X14: the other side of the gate: when an attempt for a chunk gets a
    response (the attempts before it having raised) and the filtered
    response is at least half as long as the chunk, the filtered response
    is what is appended, and no further POST is made for the chunk. *)
Theorem long_enough_response_is_taken working_model chunk calls k response :
  k < 3 ->
  (forall j, j < k -> post w (calls + j) working_model chunk = Raised) ->
  post w (calls + k) working_model chunk = Responded response ->
  (len chunk <= 2 * len (filter_response (strip response)))%Z ->
  chunk <> [] ->
  attempts w working_model chunk 3 calls
  = (filter_response (strip response), calls + k + 1).
Proof.
  intros Hk Hr Hp Hlong Hne.
  rewrite (attempts_first_response w working_model chunk 3 calls k response
             Hk Hr Hp).
  unfold accepted. cbv zeta.
  destruct (too_short (filter_response (strip response)) chunk) eqn:E;
    [|reflexivity].
  exfalso. unfold too_short, length_ratio in E.
  assert (Hpos : (0 < len chunk)%Z)
    by (destruct chunk; [contradiction | unfold len; simpl; lia]).
  assert (Eg : (len chunk >? 0)%Z = true)
    by (rewrite Z.gtb_ltb; apply Z.ltb_lt; exact Hpos).
  rewrite Eg in E. apply negb_true_iff in E.
  assert (Hle : Qle_bool (1 # 2)
                  (len (filter_response (strip response))
                     # Z.to_pos (len chunk)) = true).
  { apply Qle_bool_iff. unfold Qle. cbn [Qnum Qden].
    rewrite Z2Pos.id by exact Hpos. lia. }
  congruence.
Qed.

End AcceptedResponse.

Section AcceptedResponseInstance.

Lemma long_enough_response_is_taken_witness :
  attempts (answers_second (py "Here is the text:\nThis is broken.")) MODEL
    (py "Th1s is brok3n.") 3 0
  = (filter_response (strip (py "Here is the text:\nThis is broken.")), 0 + 1 + 1).
Proof.
  apply (long_enough_response_is_taken
           (answers_second (py "Here is the text:\nThis is broken.")) MODEL
           (py "Th1s is brok3n.") 0 1 (py "Here is the text:\nThis is broken.")).
  - lia.
  - intros j Hj. destruct j; [reflexivity | lia].
  - reflexivity.
  - vm_compute. discriminate.
  - discriminate.
Defined.

End AcceptedResponseInstance.

(** ** What the chunks keep of the text *)

Section ChunkCoverage.

Lemma rstrip_app_spaces (x ws : str) :
  forallb isspace ws = true -> rstrip (x ++ ws) = rstrip x.
Proof.
  intros H. unfold rstrip. rewrite rev_app_distr, lstrip_app.
  rewrite lstrip_spaces; [reflexivity|].
  rewrite forallb_forall in *. intros c Hc. apply H, in_rev. exact Hc.
Qed.

Lemma strip_app_spaces (a ws : str) :
  forallb isspace ws = true -> strip (a ++ ws) = strip a.
Proof.
  intros H. unfold strip. rewrite lstrip_app.
  destruct (lstrip a) as [|c t] eqn:E.
  - rewrite (lstrip_spaces ws H). reflexivity.
  - apply rstrip_app_spaces. exact H.
Qed.

Lemma rstrip_app (x y : str) :
  rstrip y <> [] -> rstrip (x ++ y) = x ++ rstrip y.
Proof.
  unfold rstrip. intros H. rewrite rev_app_distr, lstrip_app.
  destruct (lstrip (rev y)) as [|c t] eqn:E; [contradiction H; reflexivity|].
  rewrite rev_app_distr, rev_involutive. reflexivity.
Qed.

Lemma lstrip_last (a : str) c :
  isspace c = false -> lstrip (a ++ [c]) = lstrip a ++ [c].
Proof.
  intros Hc. rewrite lstrip_app. destruct (lstrip a); [|reflexivity].
  simpl. rewrite Hc. reflexivity.
Qed.

(** Stripping text that ends and starts without whitespace around a
    middle part strips the two ends only. *)
Lemma strip_glue (a m b : str) c d b' :
  isspace c = false -> isspace d = false -> b = d :: b' ->
  strip ((a ++ [c]) ++ m ++ b) = strip (a ++ [c]) ++ m ++ strip b.
Proof.
  intros Hc Hd ->. rewrite (strip_last a c Hc). unfold strip at 1.
  rewrite lstrip_app, (lstrip_last a c Hc).
  assert (Hr : rstrip (d :: b') = d :: rstrip b') by (apply rstrip_cons; exact Hd).
  assert (Hs : strip (d :: b') = d :: rstrip b')
    by (unfold strip; rewrite (lstrip_fixed d b' Hd); exact Hr).
  rewrite Hs, <- Hr.
  destruct (lstrip a ++ [c]) as [|x t] eqn:E;
    [destruct (lstrip a); discriminate E|].
  rewrite <- E. rewrite (app_assoc (lstrip a ++ [c]) m (d :: b')).
  rewrite rstrip_app by (rewrite Hr; discriminate).
  rewrite <- app_assoc. reflexivity.
Qed.

Lemma join_glue sep (a s : str) (rest : list str) :
  join sep ((a ++ sep ++ s) :: rest) = a ++ sep ++ join sep (s :: rest).
Proof.
  destruct rest as [|r rest]; cbn [join]; [reflexivity|].
  rewrite <- !app_assoc. reflexivity.
Qed.

Lemma join_cons sep (a b : str) (rest : list str) :
  join sep (a :: b :: rest) = a ++ sep ++ join sep (b :: rest).
Proof. reflexivity. Qed.

Lemma join_first sep c (t : str) (rest : list str) :
  exists t', join sep ((c :: t) :: rest) = c :: t'.
Proof. destruct rest; cbn [join]; eexists; reflexivity. Qed.

Lemma ends_sentence_cases (s : str) :
  ends_sentence s -> exists a c, s = a ++ [c] /\ isspace c = false.
Proof.
  intros (a & c & -> & Hc). exists a, c.
  split; [reflexivity | exact (terminator_not_space c Hc)].
Qed.

(** The loop from a buffer that ends a sentence: the chunks, joined by
    single spaces, are the buffer and the sentences still to come, joined
    by single spaces and stripped. *)
Lemma chunk_loop_join max_chars sentences : forall current_chunk,
  (sentences <> [] -> ends_sentence current_chunk) ->
  Forall headed sentences ->
  Forall ends_sentence (removelast sentences) ->
  join (py " ") (chunk_loop max_chars sentences current_chunk)
  = strip (join (py " ") (current_chunk :: sentences)).
Proof.
  induction sentences as [|s ss IH]; intros cur Hcur Hheads Hends;
    cbn [chunk_loop].
  - destruct (truthy cur) eqn:Et; [reflexivity|].
    rewrite (truthy_false cur Et). reflexivity.
  - assert (Hc : ends_sentence cur) by (apply Hcur; discriminate).
    destruct (ends_sentence_cases cur Hc) as (a & c & Ea & Hcs).
    assert (Et : truthy cur = true) by (rewrite Ea; destruct a; reflexivity).
    pose proof (Forall_inv Hheads) as Hs.
    pose proof (Forall_inv_tail Hheads) as Hss.
    assert (Hnext : ss <> [] -> ends_sentence s).
    { intros Hne. rewrite removelast_cons in Hends by exact Hne.
      inversion Hends; assumption. }
    assert (Hends' : Forall ends_sentence (removelast ss)).
    { destruct ss as [|s2 ss']; [constructor|].
      rewrite removelast_cons in Hends by discriminate.
      inversion Hends; assumption. }
    rewrite Et, andb_true_r.
    destruct ((len cur + len s >? max_chars)%Z).
    + specialize (IH s Hnext Hss Hends').
      rewrite join_cons. destruct s as [|d s'].
      * assert (ss = []).
        { destruct ss as [|s2 ss']; [reflexivity|].
          destruct (Hnext ltac:(discriminate)) as (b & x & Hb & _).
          destruct b; discriminate Hb. }
        subst ss. cbn [chunk_loop truthy join].
        rewrite app_nil_r. symmetry. apply strip_app_spaces. reflexivity.
      * pose proof (chunk_loop_not_nil max_chars ss (d :: s')
                      ltac:(discriminate)) as Hne.
        destruct (chunk_loop max_chars ss (d :: s')) as [|c1 cs] eqn:El;
          [contradiction Hne; reflexivity|].
        rewrite join_cons, IH, Ea.
        match goal with
        | |- context [strip (join ?sep ?pieces)] => set (T := join sep pieces)
        end.
        destruct (join_first (py " ") d s' ss) as (t' & Ej).
        change (T = d :: t') in Ej. rewrite Ej.
        symmetry. apply (strip_glue a (py " ") (d :: t') c d t' Hcs Hs eq_refl).
    + rewrite (IH (cur ++ py " " ++ s)); [rewrite join_glue; reflexivity | | |].
      * intros Hne. rewrite app_assoc. apply ends_sentence_app, Hnext, Hne.
      * exact Hss.
      * exact Hends'.
Qed.

(** After a sentence gap the text does not go on with whitespace. *)
Lemma scan_gap_head prev (s : str) before gs l r :
  scan sentence_gap prev s = Some (before, (gs, l, r)) -> headed r.
Proof.
  intros H. destruct (scan_at _ _ _ _ _ H) as (m & _ & Hm).
  unfold sentence_gap in Hm. rewrite rmatch_behind in Hm.
  destruct (last_of prev before) as [x|]; [|discriminate].
  destruct (one_of ".!?" x); [|discriminate].
  destruct (rmatch_plus_greedy _ _ _ _ _ _ Hm) as (_ & Hr).
  destruct r; [exact I | exact Hr].
Qed.

Lemma headed_prefix (a b : str) : headed (a ++ b) -> headed a.
Proof. destruct a; [intros _; exact I | intros H; exact H]. Qed.

Lemma split_from_heads fuel : forall prev (s : str),
  headed s -> Forall headed (split_from fuel sentence_gap prev s).
Proof.
  induction fuel as [|fuel IH]; intros prev s Hs; cbn [split_from].
  - constructor; [exact Hs | constructor].
  - destruct (scan sentence_gap prev s) as [[before [[gs l] r]]|] eqn:E;
      [|constructor; [exact Hs | constructor]].
    pose proof (scan_gap_head _ _ _ _ _ _ E) as Hr.
    destruct (scan_gap _ _ _ _ _ _ E) as (-> & run & _ & Ew & _).
    cbn [app]. constructor; [|exact (IH l r Hr)].
    rewrite Ew in Hs. exact (headed_prefix _ _ Hs).
Qed.

(** Every sentence after the first starts without whitespace. *)
Lemma re_split_heads (text : str) :
  Forall headed (tl (re_split sentence_gap text)).
Proof.
  unfold re_split. cbn [split_from].
  destruct (scan sentence_gap None text) as [[before [[gs l] r]]|] eqn:E;
    [|constructor].
  pose proof (scan_gap_head _ _ _ _ _ _ E) as Hr.
  destruct (scan_gap _ _ _ _ _ _ E) as (-> & _).
  cbn [app tl]. apply split_from_heads. exact Hr.
Qed.

(** The text is its sentences with a run of whitespace after each but the
    last. *)
Lemma split_from_weave fuel : forall prev (s : str),
  exists gaps,
    length (split_from fuel sentence_gap prev s) = S (length gaps)
    /\ Forall (fun gap => gap <> [] /\ forallb isspace gap = true) gaps
    /\ s = weave (split_from fuel sentence_gap prev s) gaps.
Proof.
  induction fuel as [|fuel IH]; intros prev s; cbn [split_from].
  - exists []. cbn [weave concat]. rewrite app_nil_r.
    repeat split. constructor.
  - destruct (scan sentence_gap prev s) as [[before [[gs l] r]]|] eqn:E.
    + destruct (scan_gap _ _ _ _ _ _ E) as (-> & run & Hne & Ew & Hrun).
      destruct (IH l r) as (gaps & Hlen & Hgaps & Hr).
      exists (run :: gaps). cbn [app length weave]. rewrite <- Hr.
      repeat split; [f_equal; exact Hlen | | exact Ew].
      constructor; [split; assumption | exact Hgaps].
    + exists []. cbn [weave concat]. rewrite app_nil_r.
      repeat split. constructor.
Qed.

(** C3, amended: what the chunks keep of the text.  The text is its
    sentences with a gap after each but the last, every gap a non-empty
    run of whitespace behind a [.], [!] or [?]; the chunks, joined by
    single spaces, are these sentences joined by single spaces, without
    the whitespace at the two ends.  So the chunks give the text back
    except that a sentence gap comes out as one space and the whitespace
    at the start and the end of the text is gone; whitespace inside a
    sentence is kept. *)
Theorem chunk_coverage_up_to_gaps text max_chars :
  join (py " ") (chunk_text text max_chars)
  = strip (join (py " ") (re_split sentence_gap text))
  /\ exists gaps,
       length (re_split sentence_gap text) = S (length gaps)
       /\ Forall (fun gap => gap <> [] /\ forallb isspace gap = true) gaps
       /\ Forall ends_sentence (removelast (re_split sentence_gap text))
       /\ text = weave (re_split sentence_gap text) gaps.
Proof.
  pose proof (split_from_ends (S (length text)) None text I) as Hends.
  fold (re_split sentence_gap text) in Hends.
  split.
  - unfold chunk_text. pose proof (re_split_heads text) as Hheads.
    destruct (re_split sentence_gap text) as [|s1 ss] eqn:E;
      [contradiction (split_from_not_nil _ _ _ _ E)|].
    cbn [tl] in Hheads. cbn [chunk_loop truthy]. rewrite andb_false_r.
    apply chunk_loop_join; [| exact Hheads |].
    + intros Hne. rewrite removelast_cons in Hends by exact Hne.
      inversion Hends; assumption.
    + destruct ss as [|s2 ss']; [constructor|].
      rewrite removelast_cons in Hends by discriminate.
      inversion Hends; assumption.
  - destruct (split_from_weave (S (length text)) None text)
      as (gaps & Hlen & Hgaps & Hw).
    exists gaps. repeat split; assumption.
Qed.

(** The example of the counterexample and one with whitespace inside the
    sentences and at the ends of the text. *)
Example chunk_coverage_examples :
  join (py " ") (chunk_text (py "a.\nb.") 600) = py "a. b."
  /\ chunk_text (py "  Th1s  is brok3n. \n Nex t\nsentence here. ") 20
     = [py "Th1s  is brok3n."; py "Nex t\nsentence here."].
Proof. split; vm_compute; reflexivity. Qed.

End ChunkCoverage.

Section PostsPerChunk.

(** X12: the POST budget of a chunk: wherever in the pass its turn comes
    and whatever the service answers, the retry loop makes at least one
    and at most three POSTs for it. *)
Theorem chunk_post_budget (w : world) working_model chunk calls :
  calls + 1 <= snd (attempts w working_model chunk 3 calls) <= calls + 3.
Proof.
  destruct (attempts_calls w working_model chunk 3 calls) as [H1 H2].
  specialize (H2 ltac:(lia)). lia.
Qed.

End PostsPerChunk.

Section ParagraphOfText.

(** X26: parser and section loop together, up to the [Paragraph] calls:
    the content of the section the parser returns for a text, stripped as
    the loop strips it, is handed over as one paragraph text, the
    non-blank lines of the text, stripped and joined by single spaces. *)
Theorem text_section_is_one_paragraph text s :
  In s (parse_content_sections text) ->
  paragraphs_of (strip (content s)) text_style
  = [Paragraph (join (py " ") (kept_lines_of text)) text_style].
Proof.
  rewrite parse_as_written. pose proof (kept_lines_of_spec text) as Hl.
  destruct (kept_lines_of text) as [|line lines] eqn:E; [intros []|].
  intros [<-|[]]. cbn [content].
  destruct (paragraphs_of_block (line :: lines) text_style) as [Hs Hp];
    [discriminate | exact Hl |].
  rewrite Hs. exact Hp.
Qed.

Lemma text_section_is_one_paragraph_witness :
  paragraphs_of
    (strip (content {| type := PdfGenerator.text;
                       content := py "Th1s is\nbrok3n.\n";
                       table_num := None; page := None |})) text_style
  = [Paragraph (join (py " ") (kept_lines_of (py "  Th1s is \n\n brok3n.")))
       text_style].
Proof.
  apply (text_section_is_one_paragraph (py "  Th1s is \n\n brok3n.")).
  vm_compute. left. reflexivity.
Defined.

End ParagraphOfText.
